(** * Vortex simulation: kinematic integrator, geometry solver and
      trail-continuity tracker

    A shallow embedding of the last program variant of [main.ts] (the one with
    URL parameters, the timer and the phase offsets), of
    [simulation/Vortex.ts] / [simulation/Particle.ts] and of the helpers of
    [utils/math.ts] that they call.  The parameter objects
    and [deepMerge] are embedded over a heap of objects, since what they share
    decides what [resetToDefault] restores.

    Numbers.  A JavaScript [number] is modelled by the type [number] below: a
    real number, or one of the three special values NaN, +Infinity, -Infinity,
    with the ECMAScript rules for the special values (NaN is absorbing for
    arithmetic, [Math.min] and [Math.max]; every comparison with NaN is false;
    Infinity - Infinity and Infinity * 0 are NaN).  Finite arithmetic is exact:
    rounding, overflow to Infinity and the sign of zero are abstracted away.

    The statements about arithmetic are therefore chosen so as not to rest on
    exactness: they equate the results of the same operations, compare with
    [<=], or assert finiteness under explicit bounds on the size of the
    inputs.  Where rounding or overflow of the doubles decides a question,
    the arithmetic kernels are embedded a second time over the primitive
    binary64 floats (module [Binary64]) and evaluated there. *)

From Stdlib Require Import Reals Lra ZArith Lia List Bool String Ascii DecimalString.
From Stdlib Require PrimFloat.
Import ListNotations.

Local Open Scope R_scope.

(** ** JavaScript numbers *)

Module JS.

Inductive number : Type :=
| NaN
| NegInf
| PosInf
| Fin (r : R).

Definition Rltb (a b : R) : bool := if Rlt_dec a b then true else false.
Definition Reqb (a b : R) : bool := if Req_dec_T a b then true else false.

(** The infinity carrying the sign of a non-zero real [r]. *)
Definition inf_signed (r : R) : number := if Rltb 0 r then PosInf else NegInf.

Definition neg (a : number) : number :=
  match a with
  | NaN => NaN
  | NegInf => PosInf
  | PosInf => NegInf
  | Fin x => Fin (- x)
  end.

Definition add (a b : number) : number :=
  match a, b with
  | Fin x, Fin y => Fin (x + y)
  | NaN, _ | _, NaN => NaN
  | PosInf, NegInf | NegInf, PosInf => NaN
  | PosInf, _ | _, PosInf => PosInf
  | NegInf, _ | _, NegInf => NegInf
  end.

Definition sub (a b : number) : number :=
  match a, b with
  | Fin x, Fin y => Fin (x - y)
  | NaN, _ | _, NaN => NaN
  | PosInf, PosInf | NegInf, NegInf => NaN
  | PosInf, _ | _, NegInf => PosInf
  | NegInf, _ | _, PosInf => NegInf
  end.

Definition mul (a b : number) : number :=
  match a, b with
  | Fin x, Fin y => Fin (x * y)
  | NaN, _ | _, NaN => NaN
  | PosInf, PosInf | NegInf, NegInf => PosInf
  | PosInf, NegInf | NegInf, PosInf => NegInf
  | PosInf, Fin y | Fin y, PosInf => if Reqb y 0 then NaN else inf_signed y
  | NegInf, Fin y | Fin y, NegInf => if Reqb y 0 then NaN else neg (inf_signed y)
  end.

(** Division.  A zero divisor is read as +0 (the sign of zero is not
    modelled): x / 0 is NaN for x = 0 and the infinity of the sign of x
    otherwise. *)
Definition div (a b : number) : number :=
  match a, b with
  | Fin x, Fin y =>
      if Reqb y 0 then (if Reqb x 0 then NaN else inf_signed x) else Fin (x / y)
  | NaN, _ | _, NaN => NaN
  | Fin _, PosInf | Fin _, NegInf => Fin 0
  | PosInf, Fin y => if Reqb y 0 then PosInf else inf_signed y
  | NegInf, Fin y => if Reqb y 0 then NegInf else neg (inf_signed y)
  | _, _ => NaN
  end.

(** [a < b]; false as soon as one side is NaN. *)
Definition ltb (a b : number) : bool :=
  match a, b with
  | Fin x, Fin y => Rltb x y
  | NaN, _ | _, NaN => false
  | _, NegInf => false
  | PosInf, _ => false
  | NegInf, _ => true
  | Fin _, PosInf => true
  end.

(** [a > b] *)
Definition gtb (a b : number) : bool := ltb b a.

(** [a <= b]: neither is NaN and [b < a] fails. *)
Definition leb (a b : number) : bool :=
  match a, b with
  | NaN, _ | _, NaN => false
  | _, _ => negb (ltb b a)
  end.

Definition isNaN (a : number) : bool :=
  match a with NaN => true | _ => false end.

(** [Math.max] and [Math.min]: NaN when an argument is NaN. *)
Definition Math_max (a b : number) : number :=
  match a, b with
  | Fin x, Fin y => Fin (Rmax x y)
  | NaN, _ | _, NaN => NaN
  | PosInf, _ | _, PosInf => PosInf
  | NegInf, y => y
  | x, NegInf => x
  end.

Definition Math_min (a b : number) : number :=
  match a, b with
  | Fin x, Fin y => Fin (Rmin x y)
  | NaN, _ | _, NaN => NaN
  | NegInf, _ | _, NegInf => NegInf
  | PosInf, y => y
  | x, PosInf => x
  end.

(** [Math.hypot] of two arguments: +Infinity when one is infinite (even if
    the other is NaN), otherwise NaN when one is NaN. *)
Definition Math_hypot (a b : number) : number :=
  match a, b with
  | Fin x, Fin y => Fin (sqrt (x * x + y * y))
  | PosInf, _ | NegInf, _ | _, PosInf | _, NegInf => PosInf
  | _, _ => NaN
  end.

Definition Math_cos (a : number) : number :=
  match a with Fin x => Fin (cos x) | _ => NaN end.

Definition Math_sin (a : number) : number :=
  match a with Fin x => Fin (sin x) | _ => NaN end.

Definition Math_PI : number := Fin PI.

(** [Number.isFinite] *)
Definition isFinite (a : number) : bool :=
  match a with Fin _ => true | _ => false end.

(** Truthiness of a number, as [||] and [if] test it: neither 0 nor NaN. *)
Definition truthy (a : number) : bool :=
  match a with
  | NaN => false
  | Fin x => negb (Reqb x 0)
  | _ => true
  end.

(** [a || b] on numbers. *)
Definition or_else (a b : number) : number := if truthy a then a else b.

(** [Math.floor]; [Int_part] is the floor of a real. *)
Definition Math_floor (a : number) : number :=
  match a with
  | Fin x => Fin (IZR (Int_part x))
  | _ => a
  end.

(** The integer part of a real, rounding towards zero. *)
Definition Rtrunc (q : R) : R :=
  if Rltb q 0 then - IZR (Int_part (- q)) else IZR (Int_part q).

(** [a % b]: the remainder has the sign of the dividend; NaN for an infinite
    dividend or a zero divisor, and the dividend itself for an infinite
    divisor. *)
Definition rem (a b : number) : number :=
  match a, b with
  | Fin x, Fin y => if Reqb y 0 then NaN else Fin (x - y * Rtrunc (x / y))
  | Fin x, PosInf | Fin x, NegInf => Fin x
  | _, _ => NaN
  end.

End JS.

Import JS.

Declare Scope js_scope.
Delimit Scope js_scope with js.
Bind Scope js_scope with number.
Infix "+" := JS.add : js_scope.
Infix "-" := JS.sub : js_scope.
Infix "*" := JS.mul : js_scope.
Infix "/" := JS.div : js_scope.
Notation "- a" := (JS.neg a) : js_scope.
Notation "a >? b" := (JS.gtb a b) (at level 70) : js_scope.
Notation "a <=? b" := (JS.leb a b) (at level 70) : js_scope.
Coercion Fin : R >-> number.

(** ** Vectors and helpers of [main.ts] *)

Record Vec2 : Type := mkVec2 { x : number; y : number }.

Definition add (a b : Vec2) : Vec2 :=
  {| x := (x a + x b)%js; y := (y a + y b)%js |}.

Definition rotate (v : Vec2) (angleRad : number) : Vec2 :=
  let c := Math_cos angleRad in
  let s := Math_sin angleRad in
  {| x := (x v * c - y v * s)%js; y := (x v * s + y v * c)%js |}.

Definition clamp (v min max : number) : number :=
  Math_min (Math_max v min) max.

Definition dist (a b : Vec2) : number :=
  let dx := (x a - x b)%js in
  let dy := (y a - y b)%js in
  Math_hypot dx dy.

(** ** Data model *)

Inductive PointId : Type := topL | topR | botL | botR.

(** [prev?: Vec2] and [now?: Vec2]: [None] is [undefined]. *)
Record TracedPoint : Type := mkTracedPoint {
  id : PointId;
  prev : option Vec2;
  now : option Vec2
}.

Record Motion : Type := mkMotion {
  timeScale : number;
  omegaGlobal : number;
  omegaTop : number;
  omegaBottom : number;
  dtClampMax : number
}.

Record GeometryParams : Type := mkGeometryParams {
  axisOffsetRatio : number;
  armLenRatio : number;
  topPhaseOffset : number;
  bottomPhaseOffset : number
}.

Record Trails : Type := mkTrails {
  fadeAlpha : number;
  width : number;
  alpha : number;
  passes : number;
  maxSegmentRatio : number
}.

Record State : Type := mkState {
  thetaGlobal : number;
  thetaTop : number;
  thetaBottom : number;
  timerMs : number
}.

(** [Params] without the [overlay] and [colors] groups, which only style the
    drawing, and without [actions], which are the functions further down. *)
Record Params : Type := mkParams {
  running : bool;
  motion : Motion;
  geometry : GeometryParams;
  trails : Trails;
  state : State
}.

(** The return value of [getGeometry]. *)
Record Geometry : Type := mkGeometry {
  center : Vec2;
  topAxis : Vec2;
  bottomAxis : Vec2;
  g_topL : Vec2;
  g_topR : Vec2;
  g_botL : Vec2;
  g_botR : Vec2
}.

(** What has been painted on the trails canvas since it was last filled with
    opaque black, oldest first.  [Stroke] stands for the [passes] strokes that
    [drawTrailSegment] issues for one point. *)
Inductive TrailOp : Type :=
| Fade (fade_alpha : number)
| Stroke (pid : PointId) (from to : Vec2) (line_width global_alpha n_passes : number).

(** The module-level mutable state: [params], the viewport [w] x [h], the
    [points] array, both canvases and [lastT].  The overlay canvas is redrawn
    from scratch by [drawOverlay]; it is represented by the geometry and timer
    value it was last drawn from. *)
Record World : Type := mkWorld {
  params : Params;
  w : number;
  h : number;
  points : list TracedPoint;
  trailsCanvas : list TrailOp;
  overlayCanvas : option (Geometry * number);
  lastT : number
}.

Definition set_params (p : Params) (s : World) : World :=
  mkWorld p (w s) (h s) (points s) (trailsCanvas s) (overlayCanvas s) (lastT s).
Definition set_points (ps : list TracedPoint) (s : World) : World :=
  mkWorld (params s) (w s) (h s) ps (trailsCanvas s) (overlayCanvas s) (lastT s).
Definition set_trailsCanvas (c : list TrailOp) (s : World) : World :=
  mkWorld (params s) (w s) (h s) (points s) c (overlayCanvas s) (lastT s).
Definition set_overlayCanvas (o : option (Geometry * number)) (s : World) : World :=
  mkWorld (params s) (w s) (h s) (points s) (trailsCanvas s) o (lastT s).
Definition set_lastT (t : number) (s : World) : World :=
  mkWorld (params s) (w s) (h s) (points s) (trailsCanvas s) (overlayCanvas s) t.

Definition set_state (st : State) (p : Params) : Params :=
  mkParams (running p) (motion p) (geometry p) (trails p) st.
Definition set_running (b : bool) (p : Params) : Params :=
  mkParams b (motion p) (geometry p) (trails p) (state p).

(** The array [points] as first created. *)
Definition initial_points : list TracedPoint :=
  [ mkTracedPoint topL None None;
    mkTracedPoint topR None None;
    mkTracedPoint botL None None;
    mkTracedPoint botR None None ].

Definition defaultParams : Params :=
  {| running := true;
     motion := {| timeScale := 1; omegaGlobal := 0.45; omegaTop := 2;
                  omegaBottom := -2; dtClampMax := 0.05 |};
     geometry := {| axisOffsetRatio := 0.22; armLenRatio := 0.18;
                    topPhaseOffset := 0; bottomPhaseOffset := 0 |};
     trails := {| fadeAlpha := 0.01; width := 1.25; alpha := 3; passes := 5;
                  maxSegmentRatio := 0.05 |};
     state := {| thetaGlobal := 0; thetaTop := 0; thetaBottom := 0;
                 timerMs := 0 |} |}.

(** ** Operations of [main.ts] *)

(** [clearTrails]: every point loses both positions and the trails canvas is
    filled with black. *)
Definition clearTrails (s : World) : World :=
  set_trailsCanvas []
    (set_points
       (map (fun p => {| id := id p; prev := None; now := None |}) (points s)) s).

Definition degToRad (deg : number) : number := ((deg * Math_PI) / 180)%js.

Definition getGeometry (s : World) : Geometry :=
  let minDim := Math_min (w s) (h s) in
  let center := {| x := (w s / 2)%js; y := (h s / 2)%js |} in
  let axisOffset := (axisOffsetRatio (geometry (params s)) * minDim)%js in
  let armLen := (armLenRatio (geometry (params s)) * minDim)%js in
  let topAxis :=
    add center (rotate {| x := 0; y := (- axisOffset)%js |}
                       (thetaGlobal (state (params s)))) in
  let bottomAxis :=
    add center (rotate {| x := 0; y := axisOffset |}
                       (thetaGlobal (state (params s)))) in
  let topArmAngle :=
    (thetaGlobal (state (params s)) + thetaTop (state (params s))
     + degToRad (topPhaseOffset (geometry (params s))))%js in
  let bottomArmAngle :=
    (thetaGlobal (state (params s)) + thetaBottom (state (params s))
     + degToRad (bottomPhaseOffset (geometry (params s))))%js in
  let armVecR := fun angle => rotate {| x := armLen; y := 0 |} angle in
  let armVecL := fun angle => rotate {| x := (- armLen)%js; y := 0 |} angle in
  let topR := add topAxis (armVecR topArmAngle) in
  let topL := add topAxis (armVecL topArmAngle) in
  let botR := add bottomAxis (armVecR bottomArmAngle) in
  let botL := add bottomAxis (armVecL bottomArmAngle) in
  {| center := center; topAxis := topAxis; bottomAxis := bottomAxis;
     g_topL := topL; g_topR := topR; g_botL := botL; g_botR := botR |}.

(** The table [nextPositions] indexed by a point id. *)
Definition nextPositions (geom : Geometry) (i : PointId) : Vec2 :=
  match i with
  | topL => g_topL geom
  | topR => g_topR geom
  | botL => g_botL geom
  | botR => g_botR geom
  end.

Definition fadeTrails (s : World) : World :=
  set_trailsCanvas (trailsCanvas s ++ [Fade (fadeAlpha (trails (params s)))]) s.

(** [drawTrailSegment]: nothing unless both positions are set. *)
Definition drawTrailSegment (p : TracedPoint) (s : World) : World :=
  match prev p, now p with
  | Some a, Some b =>
      set_trailsCanvas
        (trailsCanvas s ++
           [Stroke (id p) a b (width (trails (params s)))
                   (alpha (trails (params s))) (passes (trails (params s)))]) s
  | _, _ => s
  end.

Definition drawOverlay (geom : Geometry) (s : World) : World :=
  set_overlayCanvas (Some (geom, timerMs (state (params s)))) s.

Definition syncPointsToGeometry (geom : Geometry) (s : World) : World :=
  set_points
    (map (fun p =>
            let next := nextPositions geom (id p) in
            {| id := id p; prev := Some next; now := Some next |})
         (points s)) s.

Definition renderPausedState (s : World) : World :=
  let geom := getGeometry s in
  drawOverlay geom (syncPointsToGeometry geom s).

(** The body of the loop [for (const p of points)] of [step]: the continuity
    update of one traced point towards [next] under the jump threshold
    [maxSegment]. *)
Definition update (p : TracedPoint) (next : Vec2) (maxSegment : number) : TracedPoint :=
  match now p with
  | None => {| id := id p; prev := Some next; now := Some next |}
  | Some cur =>
      if (dist cur next >? maxSegment)%js
      then {| id := id p; prev := Some next; now := Some next |}
      else {| id := id p; prev := Some cur; now := Some next |}
  end.

(** The first five lines of [step]: the integrator. *)
Definition integrate (dt : number) (p : Params) : Params :=
  let dts := (clamp dt 0 (dtClampMax (motion p)) * timeScale (motion p))%js in
  set_state
    {| thetaGlobal := (thetaGlobal (state p) + omegaGlobal (motion p) * dts)%js;
       thetaTop := (thetaTop (state p) + omegaTop (motion p) * dts)%js;
       thetaBottom := (thetaBottom (state p) + omegaBottom (motion p) * dts)%js;
       timerMs := (timerMs (state p) + dts * 1000)%js |} p.

Definition step (dt : number) (s : World) : World :=
  let s1 := set_params (integrate dt (params s)) s in
  let geom := getGeometry s1 in
  let maxSegment := (maxSegmentRatio (trails (params s1)) * Math_min (w s1) (h s1))%js in
  let s2 :=
    set_points
      (map (fun p => update p (nextPositions geom (id p)) maxSegment) (points s1))
      s1 in
  let s3 := fadeTrails s2 in
  let s4 := fold_left (fun acc p => drawTrailSegment p acc) (points s3) s3 in
  drawOverlay geom s4.

(** [frame], without the URL synchronisation and the rescheduling. *)
Definition frame (t : number) (s : World) : World :=
  let dt := ((t - lastT s) / 1000)%js in
  let s1 := set_lastT t s in
  if running (params s1) then step dt s1 else s1.

(** [params.actions] *)
Definition action_clearTrails (s : World) : World :=
  let s1 := clearTrails s in
  let s2 := set_params (set_state
              {| thetaGlobal := thetaGlobal (state (params s1));
                 thetaTop := thetaTop (state (params s1));
                 thetaBottom := thetaBottom (state (params s1));
                 timerMs := 0 |} (params s1)) s1 in
  if negb (running (params s2)) then renderPausedState s2 else s2.

Definition action_resetAngles (s : World) : World :=
  let s1 := set_params (set_state
              {| thetaGlobal := 0;
                 thetaTop := 0;
                 thetaBottom := 0;
                 timerMs := timerMs (state (params s)) |} (params s)) s in
  if negb (running (params s1)) then renderPausedState s1 else s1.

Definition action_resetAll (s : World) : World :=
  action_clearTrails (action_resetAngles s).

(** ** Keyboard *)

Record KeyboardEvent : Type := mkKeyboardEvent { code : string; key : string }.

Definition lower_ascii (c : ascii) : ascii :=
  let n := nat_of_ascii c in
  if andb (Nat.leb 65 n) (Nat.leb n 90) then ascii_of_nat (n + 32) else c.

(** [toLowerCase] on the letters A-Z, which is all the comparison with ['r']
    can observe. *)
Fixpoint toLowerCase (s : string) : string :=
  match s with
  | EmptyString => EmptyString
  | String c rest => String (lower_ascii c) (toLowerCase rest)
  end.

Section Keyboard.

(** [runningController.setValue] belongs to the GUI library; its effect on
    the program state is left open. *)
Variable runningController_setValue : bool -> World -> World.

Definition onKeyDown (e : KeyboardEvent) (s : World) : World :=
  let s1 :=
    if String.eqb (code e) "Space"
    then
      let s' := set_params (set_running (negb (running (params s))) (params s)) s in
      runningController_setValue (running (params s')) s'
    else s in
  if String.eqb (toLowerCase (key e)) "r" then action_clearTrails s1 else s1.

End Keyboard.

(** ** [utils/math.ts] *)

Module Utils.

Definition length (x y : number) : number := Math_hypot x y.

(** [set] and [copy] assign the two fields of [out]; the result is the new
    content of [out]. *)
Definition set (out : Vec2) (x y : number) : Vec2 := mkVec2 x y.

Definition copy (out v : Vec2) : Vec2 := mkVec2 (x v) (y v).

End Utils.

(** ** [simulation/constants.ts] and [simulation/Vortex.ts] *)

Definition EPSILON : number := 25.

Module Vortex.

Record Vortex : Type := mkVortex { position : Vec2; gamma : number }.

(** The constructor stores a copy of the position. *)
Definition new (position : Vec2) (gamma : number) : Vortex :=
  mkVortex (mkVec2 (x position) (y position)) gamma.

Definition TWO_PI : number := (Math_PI * 2)%js.

(** The denominator [TWO_PI * r2] of [velocityAt]. *)
Definition denominator (v : Vortex) (point : Vec2) (epsilon : number) : number :=
  let dx := (x point - x (position v))%js in
  let dy := (y point - y (position v))%js in
  let r2 := (dx * dx + dy * dy + epsilon)%js in
  (TWO_PI * r2)%js.

(** [velocityAt]; the result is the new content of [out]. *)
Definition velocityAt (v : Vortex) (point : Vec2) (epsilon : number) (out : Vec2) : Vec2 :=
  let dx := (x point - x (position v))%js in
  let dy := (y point - y (position v))%js in
  let r2 := (dx * dx + dy * dy + epsilon)%js in
  let factor := (gamma v / (TWO_PI * r2))%js in
  Utils.set out (factor * (- dy))%js (factor * dx)%js.

End Vortex.

(** ** [simulation/Particle.ts] *)

Module Particle.

Record Particle : Type := mkParticle {
  position : Vec2;
  previousPosition : Vec2;
  velocity : Vec2;
  tmp : Vec2
}.

(** The constructor: four separate vectors, the first two copies of the
    initial position. *)
Definition new (initialPosition : Vec2) : Particle :=
  {| position := {| x := x initialPosition; y := y initialPosition |};
     previousPosition := {| x := x initialPosition; y := y initialPosition |};
     velocity := {| x := 0; y := 0 |};
     tmp := {| x := 0; y := 0 |} |}.

(** One turn of the loop over the vortices: [vx], [vy] and the scratch
    vector [tmp]. *)
Definition accumulate (point : Vec2) (epsilon : number)
    (acc : number * number * Vec2) (vortex : Vortex.Vortex) : number * number * Vec2 :=
  let '(vx, vy, scratch) := acc in
  let scratch' := Vortex.velocityAt vortex point epsilon scratch in
  ((vx + x scratch')%js, (vy + y scratch')%js, scratch').

(** [step]: the particle after the step and the returned speed. *)
Definition step (vortices : list Vortex.Vortex) (dt epsilon : number) (p : Particle)
    : Particle * number :=
  let previous' := Utils.set (previousPosition p) (x (position p)) (y (position p)) in
  let '(vx, vy, scratch) :=
    fold_left (accumulate (position p) epsilon) vortices (Fin 0, Fin 0, tmp p) in
  let velocity' := Utils.set (velocity p) vx vy in
  let position' :=
    {| x := (x (position p) + vx * dt)%js; y := (y (position p) + vy * dt)%js |} in
  ({| position := position'; previousPosition := previous';
      velocity := velocity'; tmp := scratch |},
   Utils.length vx vy).

End Particle.

(** ** The arithmetic kernels in binary64

    The update of an angle in [step] and [Vortex.velocityAt] use only
    additions, subtractions, multiplications, divisions, [Math.min] and
    [Math.max], which the primitive floats compute bit for bit as the
    source's doubles do.  These second embeddings evaluate the two kernels
    with rounding and overflow, where the number model above is exact; they
    serve to exhibit inputs at which rounding or overflow decides. *)

Module Binary64.

Import PrimFloat.

Definition Math_PI : float := 0x1.921fb54442d18p+1%float.

(** [Math.max] and [Math.min]: NaN when an argument is NaN (the order of
    the two zeros is not distinguished). *)
Definition Math_max (a b : float) : float :=
  if orb (is_nan a) (is_nan b) then nan else if ltb a b then b else a.

Definition Math_min (a b : float) : float :=
  if orb (is_nan a) (is_nan b) then nan else if ltb b a then b else a.

Definition clamp (v min max : float) : float := Math_min (Math_max v min) max.


Record Vec2 : Type := mkVec2 { x : float; y : float }.

Definition TWO_PI : float := (Math_PI * 2)%float.

(** The denominator and the result of [Vortex.velocityAt] for a vortex at
    [position] with circulation [gamma]. *)
Definition denominator (position : Vec2) (point : Vec2) (epsilon : float) : float :=
  let dx := (x point - x position)%float in
  let dy := (y point - y position)%float in
  let r2 := (dx * dx + dy * dy + epsilon)%float in
  (TWO_PI * r2)%float.

Definition velocityAt (position : Vec2) (gamma : float) (point : Vec2) (epsilon : float)
    : Vec2 :=
  let dx := (x point - x position)%float in
  let dy := (y point - y position)%float in
  let r2 := (dx * dx + dy * dy + epsilon)%float in
  let factor := (gamma / (TWO_PI * r2))%float in
  mkVec2 (factor * (- dy))%float (factor * dx)%float.

End Binary64.

(** ** Objects, [deepMerge] and the parameter objects

    [defaultParams], the URL overrides and [params] are object graphs, and
    [deepMerge] copies only one level of them: which objects [params] shares
    with [defaultParams] decides what an assignment through one does to the
    other.  Objects therefore live in a heap and are referred to by their
    location. *)

Module Objects.

Definition loc : Type := nat.

Inductive value : Type :=
| VUndefined
| VNull
| VBool (b : bool)
| VNumber (n : number)
| VString (s : string)
| VFunction (name : string)
| VArray (l : loc)
| VObject (l : loc).

(** The own properties of a plain object, in insertion order; a key occurs
    once. *)
Definition object : Type := list (string * value).

Definition heap : Type := list object.

(** [o[key]], [undefined] for a missing key. *)
Fixpoint get (o : object) (key : string) : value :=
  match o with
  | [] => VUndefined
  | (k, v) :: rest => if String.eqb k key then v else get rest key
  end.

(** [o[key] = v]: replaces the property or appends it. *)
Fixpoint put (o : object) (key : string) (v : value) : object :=
  match o with
  | [] => [(key, v)]
  | (k, v0) :: rest =>
      if String.eqb k key then (k, v) :: rest else (k, v0) :: put rest key v
  end.

Definition read (h : heap) (l : loc) : object := nth l h [].

Fixpoint write (h : heap) (l : loc) (o : object) : heap :=
  match h, l with
  | [], _ => []
  | _ :: rest, O => o :: rest
  | o0 :: rest, S l' => o0 :: write rest l' o
  end.

(** One turn of the loop [for (const key in source)] of [deepMerge], on the
    entry of [source] for [key]; [source] is not written by the loop, so
    [source[key]] is the value listed with the key.  [rec] is the recursive
    call.  [typeof v === 'object' && v !== null && !Array.isArray(v)] holds of
    plain objects only. *)
Definition merge_key (rec : heap -> loc -> loc -> option (heap * loc)) (result : loc)
    (acc : option heap) (entry : string * value) : option heap :=
  match acc with
  | None => None
  | Some h =>
      let '(key, sourceValue) := entry in
      let targetValue := get (read h result) key in
      match sourceValue with
      | VUndefined => Some h
      | VObject sl =>
          match targetValue with
          | VObject tl =>
              match rec h tl sl with
              | Some (h', merged) =>
                  Some (write h' result (put (read h' result) key (VObject merged)))
              | None => None
              end
          | _ => Some (write h result (put (read h result) key sourceValue))
          end
      | _ => Some (write h result (put (read h result) key sourceValue))
      end
  end.

(** [deepMerge(target, source)]: the heap afterwards and the location of the
    new object [result], which starts as the copy [{ ...target }].  The
    recursion is bounded by [fuel]; [None] is an exhausted bound. *)
Fixpoint deepMerge (fuel : nat) (h : heap) (target source : loc) : option (heap * loc) :=
  match fuel with
  | O => None
  | S fuel' =>
      let result := List.length h in
      let h1 := h ++ [read h target] in
      match fold_left (merge_key (deepMerge fuel') result) (read h source) (Some h1) with
      | Some h' => Some (h', result)
      | None => None
      end
  end.

(** [root.group.field] *)
Definition lookup (h : heap) (root : loc) (group field : string) : value :=
  match get (read h root) group with
  | VObject g => get (read h g) field
  | _ => VUndefined
  end.

(** [root.group.field = v]; [None] when [root.group] is not an object. *)
Definition assign (h : heap) (root : loc) (group field : string) (v : value)
    : option heap :=
  match get (read h root) group with
  | VObject g => Some (write h g (put (read h g) field v))
  | _ => None
  end.

(** The assignments [params.g.f = defaultParams.g.f] of [resetToDefault], in
    the order of the source. *)
Definition reset_fields : list (string * string) :=
  [ ("motion", "timeScale"); ("motion", "omegaGlobal"); ("motion", "omegaTop");
    ("motion", "omegaBottom"); ("motion", "dtClampMax");
    ("geometry", "axisOffsetRatio"); ("geometry", "armLenRatio");
    ("geometry", "topPhaseOffset"); ("geometry", "bottomPhaseOffset");
    ("trails", "fadeAlpha"); ("trails", "width"); ("trails", "alpha");
    ("trails", "passes"); ("trails", "maxSegmentRatio");
    ("overlay", "rodWidth"); ("overlay", "rodAlpha"); ("overlay", "rodColor");
    ("overlay", "axisColor"); ("overlay", "axisShadowBlur");
    ("overlay", "centerAxisRadius"); ("overlay", "rotorAxisRadius");
    ("overlay", "pointRadius"); ("overlay", "pointShadowBlur");
    ("colors", "topL"); ("colors", "topR"); ("colors", "botL"); ("colors", "botR");
    ("state", "thetaGlobal"); ("state", "thetaTop"); ("state", "thetaBottom") ]%string.

(** The part of [resetToDefault] that restores the parameters and the
    angles, up to the call of the clear-trails action: [params.running] and
    the thirty fields are assigned from [defaultParams]. *)
Definition restore_defaults (h : heap) (params defaultParams : loc) : option heap :=
  let h0 :=
    write h params (put (read h params) "running" (get (read h defaultParams) "running")) in
  fold_left
    (fun acc gf =>
       match acc with
       | None => None
       | Some h' =>
           assign h' params (fst gf) (snd gf) (lookup h' defaultParams (fst gf) (snd gf))
       end)
    reset_fields (Some h0).

(** The objects of [defaultParams], at locations 0 to 7. *)
Definition default_heap : heap :=
  [ (* 0: defaultParams *)
    [ ("running", VBool true); ("motion", VObject 1%nat); ("geometry", VObject 2%nat);
      ("trails", VObject 3%nat); ("overlay", VObject 4%nat); ("colors", VObject 5%nat);
      ("state", VObject 6%nat); ("actions", VObject 7%nat) ];
    (* 1: motion *)
    [ ("timeScale", VNumber 1); ("omegaGlobal", VNumber 0.45); ("omegaTop", VNumber 2);
      ("omegaBottom", VNumber (-2)); ("dtClampMax", VNumber 0.05) ];
    (* 2: geometry *)
    [ ("axisOffsetRatio", VNumber 0.22); ("armLenRatio", VNumber 0.18);
      ("topPhaseOffset", VNumber 0); ("bottomPhaseOffset", VNumber 0) ];
    (* 3: trails *)
    [ ("fadeAlpha", VNumber 0.01); ("width", VNumber 1.25); ("alpha", VNumber 3);
      ("passes", VNumber 5); ("maxSegmentRatio", VNumber 0.05) ];
    (* 4: overlay *)
    [ ("rodWidth", VNumber 3); ("rodAlpha", VNumber 0.35); ("rodColor", VString "#dcdcdc");
      ("axisColor", VString "#34c759"); ("axisShadowBlur", VNumber 10);
      ("centerAxisRadius", VNumber 7); ("rotorAxisRadius", VNumber 8);
      ("pointRadius", VNumber 9); ("pointShadowBlur", VNumber 16) ];
    (* 5: colors *)
    [ ("topL", VString "#ff3b30"); ("topR", VString "#ff9f0a");
      ("botL", VString "#0a84ff"); ("botR", VString "#bf5af2") ];
    (* 6: state *)
    [ ("thetaGlobal", VNumber 0); ("thetaTop", VNumber 0); ("thetaBottom", VNumber 0);
      ("timerMs", VNumber 0) ];
    (* 7: actions *)
    [ ("clearTrails", VFunction "clearTrails"); ("resetAngles", VFunction "resetAngles");
      ("resetAll", VFunction "resetAll"); ("resetToDefault", VFunction "resetToDefault") ]
  ]%string.

End Objects.

(** ** Further operations of [main.ts] *)

Definition set_viewport (vw vh : number) (s : World) : World :=
  mkWorld (params s) vw vh (points s) (trailsCanvas s) (overlayCanvas s) (lastT s).

(** The callback assigned to [afterResize] once the GUI is set up. *)
Definition afterResize_installed (s : World) : World :=
  if negb (running (params s)) then renderPausedState s else s.

(** The device pixel ratio that [resize] computes. *)
Definition resize_dpr (devicePixelRatio : number) : number :=
  Math_max 1 (Math_floor (or_else devicePixelRatio 1)).

(** [resize], given [window.innerWidth], [window.innerHeight] and the current
    content of the variable [afterResize] ([None] during the first call, at
    load).  Assigning the width and height of a canvas clears it, so the
    overlay is empty afterwards; the trails canvas is then filled with
    black. *)
Definition resize (afterResize : option (World -> World))
    (innerWidth innerHeight : number) (s : World) : World :=
  let s1 := set_viewport (Math_floor innerWidth) (Math_floor innerHeight) s in
  let s2 := set_overlayCanvas None (set_trailsCanvas [] s1) in
  match afterResize with
  | Some callback => callback s2
  | None => s2
  end.

(** [padStart]: [padString] is repeated, and cut, to fill up to
    [targetLength]; a string already that long, or an empty [padString],
    leaves the string as it is. *)
Definition padStart (s : string) (targetLength : nat) (padString : string) : string :=
  let len := String.length s in
  if Nat.leb targetLength len then s
  else if String.eqb padString "" then s
  else
    (substring 0 (targetLength - len)
       (String.concat "" (repeat padString (targetLength - len))) ++ s)%string.

(** The three numbers that [formatTimer] prints. *)
Definition timer_fields (msTotal : number) : number * number * number :=
  let ms := Math_max 0 (Math_floor msTotal) in
  let minutes := Math_floor (ms / 60000)%js in
  let seconds := Math_floor (rem ms 60000 / 1000)%js in
  let millis := rem ms 1000 in
  (minutes, seconds, millis).

Section FormatTimer.

(** The conversion [String(n)] of a number to its decimal text. *)
Variable toString : number -> string.

(** [formatTimer] of [drawOverlay] *)
Definition formatTimer (msTotal : number) : string :=
  let '(minutes, seconds, millis) := timer_fields msTotal in
  let mm := padStart (toString minutes) 2 "0" in
  let ss := padStart (toString seconds) 2 "0" in
  let mmm := padStart (toString millis) 3 "0" in
  (mm ++ ":" ++ ss ++ "." ++ mmm)%string.

End FormatTimer.

(** The frames of a run of the animation loop, one per timestamp. *)
Definition frames (ts : list number) (s : World) : World :=
  fold_left (fun acc t => frame t acc) ts s.

(** ** Vocabulary of the statements *)

(** The three accumulated angles, each with its angular velocity. *)
Inductive Angle : Type := AGlobal | ATop | ABottom.

Definition theta_of (a : Angle) (st : State) : number :=
  match a with
  | AGlobal => thetaGlobal st
  | ATop => thetaTop st
  | ABottom => thetaBottom st
  end.

Definition omega_of (a : Angle) (m : Motion) : number :=
  match a with
  | AGlobal => omegaGlobal m
  | ATop => omegaTop m
  | ABottom => omegaBottom m
  end.

(** The effective time step of [step] for the raw delta [dt]. *)
Definition effective_step (dt : number) (p : Params) : number :=
  (clamp dt 0 (dtClampMax (motion p)) * timeScale (motion p))%js.

(** [previous] is absent exactly when [current] is. *)
Definition paired (p : TracedPoint) : Prop := prev p = None <-> now p = None.

(** Both positions of a traced point are absent. *)
Definition absent (p : TracedPoint) : Prop := prev p = None /\ now p = None.

(** A world with the given parameters and viewport, freshly started. *)
Definition fresh_world (p : Params) (vw vh : number) : World :=
  {| params := p; w := vw; h := vh; points := initial_points;
     trailsCanvas := []; overlayCanvas := None; lastT := 0 |}.

(** The program as started with the default parameters in a 1000 x 1000
    viewport. *)
Definition world0 : World := fresh_world defaultParams 1000 1000.

(** The same with [axisOffsetRatio = -0.22], as the URL parameter
    [?axisOffsetRatio=-0.22] sets it. *)
Definition world_negative_offset : World :=
  fresh_world
    (mkParams true (motion defaultParams)
       {| axisOffsetRatio := -0.22; armLenRatio := 0.18;
          topPhaseOffset := 0; bottomPhaseOffset := 0 |}
       (trails defaultParams) (state defaultParams))
    1000 1000.

(** The default program after a first frame of 50 ms. *)
Definition world_elapsed : World := step 0.05 world0.

(** The default program paused before its first frame. *)
Definition world_paused : World :=
  fresh_world (set_running false defaultParams) 1000 1000.

(** The geometry with which a paused reset of the angles resynchronises the
    points: the one of [s] with the three angles at zero. *)
Definition zeroed_angles (s : World) : World :=
  set_params
    (set_state {| thetaGlobal := 0; thetaTop := 0; thetaBottom := 0;
                  timerMs := timerMs (state (params s)) |} (params s)) s.



(** What [drawTrailSegment] paints for a point. *)
Definition stroke_of (s : World) (p : TracedPoint) : list TrailOp :=
  match prev p, now p with
  | Some a, Some b =>
      [Stroke (id p) a b (width (trails (params s))) (alpha (trails (params s)))
              (passes (trails (params s)))]
  | _, _ => []
  end.

(** What [update] guarantees of a painted stroke: its ends coincide or the
    comparison [dist > maxSegment] was false (as it also is when the
    distance or the threshold is NaN). *)
Definition short_stroke (maxSegment : number) (op : TrailOp) : Prop :=
  match op with
  | Fade _ => False
  | Stroke _ a b _ _ _ => a = b \/ (dist a b >? maxSegment)%js = false
  end.

(** The time scale, the three angular velocities, the three angles and the
    timer are finite numbers. *)
Definition finite_kinematics (p : Params) : Prop :=
  isFinite (timeScale (motion p)) = true /\
  (forall a, isFinite (omega_of a (motion p)) = true) /\
  (forall a, isFinite (theta_of a (state p)) = true) /\
  isFinite (timerMs (state p)) = true.

(** The viewport, the four geometry parameters and the three angles are
    finite numbers. *)
Definition finite_geometry (s : World) : Prop :=
  isFinite (w s) = true /\ isFinite (h s) = true /\
  isFinite (axisOffsetRatio (geometry (params s))) = true /\
  isFinite (armLenRatio (geometry (params s))) = true /\
  isFinite (topPhaseOffset (geometry (params s))) = true /\
  isFinite (bottomPhaseOffset (geometry (params s))) = true /\
  (forall a, isFinite (theta_of a (state (params s))) = true).

(** A conversion to text that agrees with [String] on the integers a timer
    shows (whole numbers below 10^21): decimal digits, with a minus sign
    when negative. *)
Definition decimal_text (n : number) : string :=
  match n with
  | NaN => "NaN"
  | PosInf => "Infinity"
  | NegInf => "-Infinity"
  | Fin r => NilZero.string_of_int (Z.to_int (Int_part r))
  end.

(** The vector with both components negated. *)
Definition negate (v : Vec2) : Vec2 := {| x := (- x v)%js; y := (- y v)%js |}.

(** A magnitude far inside the range of the doubles (whose largest finite
    value is about 1.8e308): a sum or difference of a few numbers of this
    size is again a finite double. *)
Definition moderate (r : R) : Prop := Rabs r <= 1e300.

(** A finite number of moderate magnitude. *)
Definition moderate_number (a : number) : Prop :=
  match a with
  | Fin r => moderate r
  | _ => False
  end.

(** The three angles and the two phase offsets are moderate, so that the
    arm angles [thetaGlobal + thetaTop + degToRad(topPhaseOffset)] and its
    bottom counterpart are finite. *)
Definition moderate_angles (s : World) : Prop :=
  (forall a, moderate_number (theta_of a (state (params s)))) /\
  moderate_number (topPhaseOffset (geometry (params s))) /\
  moderate_number (bottomPhaseOffset (geometry (params s))).

(** A painted stroke is bounded by the jump threshold unless a NaN leaves
    the comparison undecided: its ends coincide, or the threshold is NaN, or
    the distance between its ends is NaN, or [dist <= maxSegment]. *)
Definition bounded_stroke (maxSegment : number) (op : TrailOp) : Prop :=
  match op with
  | Fade _ => False
  | Stroke _ a b _ _ _ =>
      a = b \/ isNaN maxSegment = true \/ isNaN (dist a b) = true
      \/ (dist a b <=? maxSegment)%js = true
  end.

(** What a later heap keeps of an earlier one: it is no shorter and agrees
    with it at every location below [n]. *)
Definition keeps (n : nat) (h h' : Objects.heap) : Prop :=
  (List.length h <= List.length h')%nat /\
  forall l, (l < n)%nat -> Objects.read h' l = Objects.read h l.

(** The object at [s] nests plain objects at most [d] levels deep, all of
    them in the heap. *)
Fixpoint flat (d : nat) (h : Objects.heap) (s : Objects.loc) : Prop :=
  Forall (fun e =>
            match snd e with
            | Objects.VObject l =>
                match d with
                | O => False
                | S d' => (l < List.length h)%nat /\ flat d' h l
                end
            | _ => True
            end)
         (Objects.read h s).

(** The source object has no defined value for [key]. *)
Definition not_overridden (h : Objects.heap) (s : Objects.loc) (key : string) : Prop :=
  forall v, In (key, v) (Objects.read h s) -> v = Objects.VUndefined.

(** Every group that [resetToDefault] restores is an object of the heap,
    other than the root [t], holding every restored field. *)
Definition defaults_complete (h : Objects.heap) (t : Objects.loc) : Prop :=
  forall g f, In (g, f) Objects.reset_fields ->
    exists l, Objects.get (Objects.read h t) g = Objects.VObject l /\
              (l < List.length h)%nat /\ l <> t /\
              In f (map fst (Objects.read h l)).

(** [p] and [t] hold the very same object under every restored group. *)
Definition shares (h : Objects.heap) (p t : Objects.loc) : Prop :=
  forall g f, In (g, f) Objects.reset_fields ->
    exists l, Objects.get (Objects.read h p) g = Objects.VObject l /\
              Objects.get (Objects.read h t) g = Objects.VObject l /\
              l <> p /\ l <> t /\ (l < List.length h)%nat /\
              In f (map fst (Objects.read h l)).

(** The heap of [defaultParams] followed by an empty overrides object, as
    [parseURLParams] returns it for a URL without parameters. *)
Definition heap_no_overrides : Objects.heap := Objects.default_heap ++ [[]].

(** The same with the overrides of [?timeScale=2]: the object
    [{ motion: { timeScale: 2 } }] at location 9. *)
Definition heap_timeScale_override : Objects.heap :=
  Objects.default_heap
  ++ [ [("timeScale"%string, Objects.VNumber 2)];
       [("motion"%string, Objects.VObject 8%nat)] ].

(** * Properties *)

(** ** Evaluating the number model *)

Lemma Rltb_true (a b : R) : a < b -> Rltb a b = true.
Proof. intros Hab. unfold Rltb. destruct (Rlt_dec a b); [reflexivity | contradiction]. Qed.

Lemma Rltb_false (a b : R) : b <= a -> Rltb a b = false.
Proof. intros Hab. unfold Rltb. destruct (Rlt_dec a b); [lra | reflexivity]. Qed.

Lemma Reqb_false (a b : R) : a <> b -> Reqb a b = false.
Proof. intros Hab. unfold Reqb. destruct (Req_dec_T a b); [contradiction | reflexivity]. Qed.

Lemma Reqb_true (a b : R) : a = b -> Reqb a b = true.
Proof. intros Hab. unfold Reqb. destruct (Req_dec_T a b); [reflexivity | contradiction]. Qed.

Lemma div_Fin (a b : R) : b <> 0 -> (Fin a / Fin b)%js = Fin (a / b).
Proof. intros Hb. simpl. now rewrite (Reqb_false _ _ Hb). Qed.

Lemma gtb_Fin_true (a b : R) : b < a -> (Fin a >? Fin b)%js = true.
Proof. intros Hab. unfold gtb. simpl. now apply Rltb_true. Qed.

Lemma gtb_Fin_false (a b : R) : a <= b -> (Fin a >? Fin b)%js = false.
Proof. intros Hab. unfold gtb. simpl. now apply Rltb_false. Qed.

Lemma leb_Fin_true (a b : R) : a <= b -> (Fin a <=? Fin b)%js = true.
Proof. intros Hab. simpl. now rewrite Rltb_false. Qed.

Lemma leb_Fin_inv (a b : R) : (Fin a <=? Fin b)%js = true -> a <= b.
Proof.
  simpl. unfold Rltb. destruct (Rlt_dec b a) as [Hlt | Hge]; [discriminate | lra].
Qed.

Lemma gtb_Fin_inv (a b : R) : (Fin a >? Fin b)%js = true -> b < a.
Proof.
  unfold gtb. simpl. unfold Rltb. destruct (Rlt_dec b a); [trivial | discriminate].
Qed.

Lemma Fin_inj (a b : R) : Fin a = Fin b -> a = b.
Proof. now intros [= ->]. Qed.

(** Decides closed comparisons between real constants met while evaluating
    the model. *)
Ltac js_eval :=
  repeat first
    [ rewrite Rltb_true by lra
    | rewrite Rltb_false by lra
    | rewrite Reqb_false by lra
    | rewrite Reqb_true by lra ].

(** Negation only flips signs: it commutes with the products, sums and
    differences of the model, infinities and NaN included. *)
Lemma inf_signed_opp (r : R) : r <> 0 -> inf_signed (- r) = neg (inf_signed r).
Proof.
  intros Hr. unfold inf_signed, Rltb.
  destruct (Rlt_dec 0 (- r)), (Rlt_dec 0 r); cbn; try reflexivity; lra.
Qed.

Lemma Reqb_opp (r : R) : Reqb (- r) 0 = Reqb r 0.
Proof.
  unfold Reqb. destruct (Req_dec_T (- r) 0), (Req_dec_T r 0); try reflexivity; lra.
Qed.

Lemma neg_involutive (a : number) : (- - a)%js = a.
Proof. destruct a as [| | | r]; cbn; try reflexivity. f_equal. ring. Qed.


Lemma neg_mul_l (a b : number) : (- (a * b))%js = (- a * b)%js.
Proof.
  destruct a as [| | | r], b as [| | | r']; cbn; try reflexivity;
    rewrite ?Reqb_opp.
  all: try (f_equal; ring).
  all: try match goal with
           | |- context [Reqb ?z 0] =>
               unfold Reqb; destruct (Req_dec_T z 0) as [Hz | Hz]; [reflexivity |]
           end.
  all: rewrite ?inf_signed_opp by assumption; rewrite ?neg_involutive; reflexivity.
Qed.

Lemma neg_add (a b : number) : (- (a + b))%js = (- a + - b)%js.
Proof.
  destruct a as [| | | r], b as [| | | r']; cbn; try reflexivity. f_equal. ring.
Qed.

Lemma neg_sub (a b : number) : (- (a - b))%js = (- a - - b)%js.
Proof.
  destruct a as [| | | r], b as [| | | r']; cbn; try reflexivity. f_equal. ring.
Qed.

Lemma rotate_negate (v : Vec2) (angleRad : number) :
  rotate (negate v) angleRad = negate (rotate v angleRad).
Proof.
  unfold rotate, negate. cbn [x y].
  now rewrite neg_sub, neg_add, !neg_mul_l.
Qed.

(** ** The integrator *)

Lemma drawTrailSegment_params (p : TracedPoint) (s : World) :
  params (drawTrailSegment p s) = params s.
Proof. unfold drawTrailSegment. destruct (prev p), (now p); reflexivity. Qed.

Lemma drawTrailSegment_points (p : TracedPoint) (s : World) :
  points (drawTrailSegment p s) = points s.
Proof. unfold drawTrailSegment. destruct (prev p), (now p); reflexivity. Qed.

Lemma fold_draw_params (ps : list TracedPoint) (s : World) :
  params (fold_left (fun acc p => drawTrailSegment p acc) ps s) = params s.
Proof.
  revert s. induction ps as [| p ps IH]; intros s; simpl; [reflexivity |].
  rewrite IH. apply drawTrailSegment_params.
Qed.

Lemma fold_draw_points (ps : list TracedPoint) (s : World) :
  points (fold_left (fun acc p => drawTrailSegment p acc) ps s) = points s.
Proof.
  revert s. induction ps as [| p ps IH]; intros s; simpl; [reflexivity |].
  rewrite IH. apply drawTrailSegment_points.
Qed.

Lemma step_params (dt : number) (s : World) :
  params (step dt s) = integrate dt (params s).
Proof. unfold step, drawOverlay. simpl. now rewrite fold_draw_params. Qed.

Lemma step_points (dt : number) (s : World) :
  points (step dt s) =
  let s1 := set_params (integrate dt (params s)) s in
  map (fun p => update p (nextPositions (getGeometry s1) (id p))
                  (maxSegmentRatio (trails (params s1)) * Math_min (w s1) (h s1))%js)
      (points s).
Proof. unfold step, drawOverlay. simpl. now rewrite fold_draw_points. Qed.

Lemma integrate_theta (a : Angle) (dt : number) (p : Params) :
  theta_of a (state (integrate dt p)) =
  (theta_of a (state p) + omega_of a (motion p) * effective_step dt p)%js.
Proof. destruct a; reflexivity. Qed.

Lemma clamp_bounds (v c : number) :
  isNaN v = false -> (0 <=? c)%js = true ->
  (0 <=? clamp v 0 c)%js = true /\ (clamp v 0 c <=? c)%js = true.
Proof.
  intros Hv Hc. unfold clamp.
  destruct v as [| | | r]; try discriminate;
    destruct c as [| | | c]; try discriminate;
    try apply leb_Fin_inv in Hc; cbn [Math_max Math_min].
  all: try (split; apply leb_Fin_true).
  all: try (split; [apply leb_Fin_true | reflexivity]).
  all: try (split; reflexivity).
  all: try solve [apply Rmin_glb; lra | apply Rmin_r | apply Rmax_r
                  | apply Rmin_glb; [apply Rmax_r | lra] | lra ].
Qed.

(** C1, as stated, fails in two ways.  A NaN frame delta goes through
    [clamp] unchanged ([Math.max] and [Math.min] return NaN), the clamped
    value is not in [0, dtClampMax], and all three accumulated angles become
    NaN.  And with a negative ceiling, which the URL parameter
    [?dtClampMax=-1] sets, an ordinary delta of 16 ms clamps to
    [-1], below zero. *)
Lemma C1_nan_delta_propagates :
  (clamp NaN 0 (dtClampMax (motion (params world0))) = NaN /\
   (0 <=? clamp NaN 0 (dtClampMax (motion (params world0))))%js = false /\
   thetaGlobal (state (params (step NaN world0))) = NaN /\
   thetaTop (state (params (step NaN world0))) = NaN /\
   thetaBottom (state (params (step NaN world0))) = NaN) /\
  (clamp 0.016 0 (-1) = Fin (-1) /\
   (0 <=? clamp 0.016 0 (-1))%js = false).
Proof.
  split; [repeat split; reflexivity |].
  assert (Hc : clamp 0.016 0 (-1) = Fin (-1)).
  { cbv [clamp Math_max Math_min]. f_equal.
    rewrite Rmax_left by lra. rewrite Rmin_right by lra. reflexivity. }
  split; [exact Hc |]. rewrite Hc. cbn. js_eval. reflexivity.
Qed.

(** C1, amended: for every raw frame delta, NaN and the infinities
    included, the angles and the timer of [step] advance by the effective
    step [clamp(dt, 0, dtClampMax) * timeScale], so the raw delta reaches
    them only through [clamp]; and when the raw delta is not NaN and the
    ceiling satisfies [0 <= dtClampMax], the clamped delta lies in
    [0, dtClampMax]. *)
Theorem C1_step_uses_clamped_delta (dt : number) (s : World) :
  let c := clamp dt 0 (dtClampMax (motion (params s))) in
  let dts := (c * timeScale (motion (params s)))%js in
  (effective_step dt (params s) = dts /\
   state (params (step dt s)) =
     {| thetaGlobal :=
          (thetaGlobal (state (params s)) + omegaGlobal (motion (params s)) * dts)%js;
        thetaTop :=
          (thetaTop (state (params s)) + omegaTop (motion (params s)) * dts)%js;
        thetaBottom :=
          (thetaBottom (state (params s)) + omegaBottom (motion (params s)) * dts)%js;
        timerMs := (timerMs (state (params s)) + dts * 1000)%js |}) /\
  (isNaN dt = false ->
   (0 <=? dtClampMax (motion (params s)))%js = true ->
   (0 <=? c)%js = true /\ (c <=? dtClampMax (motion (params s)))%js = true).
Proof.
  intros c dts. split; [split |].
  - reflexivity.
  - rewrite step_params. reflexivity.
  - intros Hdt Hceil. now apply clamp_bounds.
Qed.

(** C1 at an infinite frame delta with the default parameters. *)
Lemma C1_step_uses_clamped_delta_witness :
  (0 <=? clamp PosInf 0 (dtClampMax (motion (params world0))))%js = true /\
  (clamp PosInf 0 (dtClampMax (motion (params world0)))
   <=? dtClampMax (motion (params world0)))%js = true.
Proof.
  refine (proj2 (C1_step_uses_clamped_delta PosInf world0) _ _).
  - reflexivity.
  - apply leb_Fin_true. lra.
Defined.

(** ** The geometry solver *)

Lemma Rmin_same (a : R) : Rmin a a = a.
Proof. unfold Rmin. destruct (Rle_dec a a); reflexivity. Qed.

(** Unfolds [getGeometry] on a closed world with zero angles and evaluates
    the trigonometry. *)
Ltac geometry_eval :=
  cbv [getGeometry world0 world_negative_offset fresh_world defaultParams
       params w h geometry state
       axisOffsetRatio armLenRatio topPhaseOffset bottomPhaseOffset
       thetaGlobal thetaTop thetaBottom center topAxis bottomAxis
       g_topL g_topR g_botL g_botR
       degToRad Math_PI add rotate dist x y Math_min Math_cos Math_sin Math_hypot
       JS.add JS.sub JS.mul JS.neg JS.div];
  rewrite ?(Reqb_false 2 0), ?(Reqb_false 180 0) by lra;
  cbv beta iota;
  try replace (0 + 0 + 0 * PI / 180) with 0 by lra;
  rewrite ?Rmin_same, ?cos_0, ?sin_0.

(** C2, as stated, fails: with [axisOffset = 0.22 * 1000 = 220] the axes are
    220 away from the centre, not 110, so none of the four listed points has
    the y coordinate the claim gives. *)
Lemma C2_listed_points_differ :
  topAxis (getGeometry world0) <> {| x := 500; y := 390 |} /\
  bottomAxis (getGeometry world0) <> {| x := 500; y := 610 |} /\
  g_topR (getGeometry world0) <> {| x := 680; y := 390 |} /\
  g_topL (getGeometry world0) <> {| x := 320; y := 390 |}.
Proof.
  repeat split; geometry_eval; intros [= Hx Hy]; lra.
Qed.

(** C2, amended: with all three angles and both phase offsets 0,
    [axisOffsetRatio = 0.22], [armLenRatio = 0.18] and a 1000 x 1000
    viewport, [getGeometry] returns center (500,500), topAxis (500,280),
    bottomAxis (500,720), topRight (680,280), topLeft (320,280),
    bottomRight (680,720) and bottomLeft (320,720). *)
Theorem C2_geometry_at_rest :
  getGeometry world0 =
  {| center := {| x := 500; y := 500 |};
     topAxis := {| x := 500; y := 280 |};
     bottomAxis := {| x := 500; y := 720 |};
     g_topL := {| x := 320; y := 280 |};
     g_topR := {| x := 680; y := 280 |};
     g_botL := {| x := 320; y := 720 |};
     g_botR := {| x := 680; y := 720 |} |}.
Proof.
  geometry_eval. repeat f_equal; lra.
Qed.



(** ** The continuity tracker *)

Lemma sqrt_above (a b : R) : 0 <= a -> a * a < b -> a < sqrt b.
Proof.
  intros Ha Hab. rewrite <- (sqrt_square a Ha). apply sqrt_lt_1; nra.
Qed.

Lemma sqrt_below (a b : R) : 0 <= a -> 0 <= b -> b <= a * a -> sqrt b <= a.
Proof.
  intros Ha Hb Hab. rewrite <- (sqrt_square a Ha). apply sqrt_le_1; nra.
Qed.

(** C3: for a traced point whose current position is present, [update]
    collapses both positions onto the new one when the distance exceeds the
    threshold and otherwise shifts current into previous; [step] runs it on
    every point with the threshold [maxSegmentRatio * min(w, h)]; and from
    current (0,0) with threshold 5 the update to (1000,1000) collapses while
    the update to (1,1) links (0,0) to (1,1). *)
Theorem C3_jump_suppression :
  (forall (p : TracedPoint) (cur next : Vec2) (maxSegment : number),
      now p = Some cur ->
      ((dist cur next >? maxSegment)%js = true ->
       update p next maxSegment = {| id := id p; prev := Some next; now := Some next |}) /\
      ((dist cur next >? maxSegment)%js = false ->
       update p next maxSegment = {| id := id p; prev := Some cur; now := Some next |})) /\
  (forall (dt : number) (s : World),
      points (step dt s) =
      map (fun p =>
             update p
               (nextPositions (getGeometry (set_params (integrate dt (params s)) s)) (id p))
               (maxSegmentRatio (trails (params s)) * Math_min (w s) (h s))%js)
          (points s)) /\
  (forall (i : PointId) (pr : option Vec2),
      update {| id := i; prev := pr; now := Some {| x := 0; y := 0 |} |}
             {| x := 1000; y := 1000 |} 5
      = {| id := i; prev := Some {| x := 1000; y := 1000 |};
           now := Some {| x := 1000; y := 1000 |} |} /\
      update {| id := i; prev := pr; now := Some {| x := 0; y := 0 |} |}
             {| x := 1; y := 1 |} 5
      = {| id := i; prev := Some {| x := 0; y := 0 |};
           now := Some {| x := 1; y := 1 |} |}).
Proof.
  split; [| split].
  - intros p cur next maxSegment Hnow. unfold update. rewrite Hnow.
    split; intros Hcmp; rewrite Hcmp; reflexivity.
  - intros dt s. apply step_points.
  - intros i pr. unfold update. cbn [now id dist x y JS.sub Math_hypot]. split.
    + rewrite gtb_Fin_true; [reflexivity |]. apply sqrt_above; lra.
    + rewrite gtb_Fin_false; [reflexivity |]. apply sqrt_below; lra.
Qed.

(** C3 on the point [topL] standing at (0,0) and moving to (3,4), distance 5,
    under the threshold 50. *)
Lemma C3_jump_suppression_witness :
  update {| id := topL; prev := None; now := Some {| x := 0; y := 0 |} |}
         {| x := 3; y := 4 |} 50
  = {| id := topL; prev := Some {| x := 0; y := 0 |}; now := Some {| x := 3; y := 4 |} |}.
Proof.
  refine (proj2 (proj1 C3_jump_suppression
                   {| id := topL; prev := None; now := Some {| x := 0; y := 0 |} |}
                   {| x := 0; y := 0 |} {| x := 3; y := 4 |} 50 eq_refl) _).
  cbn [dist x y JS.sub Math_hypot]. apply gtb_Fin_false. apply sqrt_below; lra.
Defined.

(** C6: when the current position is absent, one update sets previous and
    current to the new position, whatever the threshold; the two ends of the
    segment coincide. *)
Theorem C6_update_absent (p : TracedPoint) (P : Vec2) (maxSegment : number) :
  now p = None ->
  update p P maxSegment = {| id := id p; prev := Some P; now := Some P |} /\
  prev (update p P maxSegment) = now (update p P maxSegment).
Proof.
  intros Hnow. unfold update. rewrite Hnow. split; reflexivity.
Qed.

(** C6 on the point [topL] as first created, with a NaN threshold. *)
Lemma C6_update_absent_witness :
  update {| id := topL; prev := None; now := None |} {| x := 3; y := 4 |} NaN
  = {| id := topL; prev := Some {| x := 3; y := 4 |}; now := Some {| x := 3; y := 4 |} |}.
Proof.
  exact (proj1 (C6_update_absent {| id := topL; prev := None; now := None |}
                  {| x := 3; y := 4 |} NaN eq_refl)).
Defined.

Lemma update_paired (p : TracedPoint) (next : Vec2) (maxSegment : number) :
  paired (update p next maxSegment).
Proof.
  unfold update, paired.
  destruct (now p) as [cur |]; [destruct (dist cur next >? maxSegment)%js |];
    cbn; split; discriminate.
Qed.

Lemma Forall_map_all {A B : Type} (P : B -> Prop) (f : A -> B) (l : list A) :
  (forall a, P (f a)) -> Forall P (map f l).
Proof.
  intros Hf. induction l as [| a l IH]; cbn; constructor; auto.
Qed.

(** C5: after the per-frame continuity update of [step], after
    [clearTrails] and after [syncPointsToGeometry] (hence after
    [renderPausedState] and the clear-trails action), every traced point has
    previous absent if and only if current is absent, from whatever state the
    operation started. *)
Theorem C5_prev_now_paired (s : World) (dt : number) (geom : Geometry) :
  Forall paired (points (step dt s)) /\
  Forall paired (points (clearTrails s)) /\
  Forall paired (points (syncPointsToGeometry geom s)) /\
  Forall paired (points (renderPausedState s)) /\
  Forall paired (points (action_clearTrails s)).
Proof.
  assert (Hsync : forall g s', Forall paired (points (syncPointsToGeometry g s'))).
  { intros g s'. cbn. apply Forall_map_all. intros a. unfold paired. cbn.
    split; discriminate. }
  assert (Hclear : forall s', Forall paired (points (clearTrails s'))).
  { intros s'. cbn. apply Forall_map_all. intros a. unfold paired. cbn.
    split; reflexivity. }
  repeat split.
  - rewrite step_points. apply Forall_map_all. intros a. apply update_paired.
  - apply Hclear.
  - apply Hsync.
  - apply (Hsync (getGeometry s) s).
  - unfold action_clearTrails. cbv zeta.
    destruct (negb _).
    + unfold renderPausedState, drawOverlay. cbn [points set_overlayCanvas].
      apply Hsync.
    + apply (Hclear s).
Qed.

(** ** The reset actions *)

Lemma resetAngles_timer (s : World) :
  timerMs (state (params (action_resetAngles s))) = timerMs (state (params s)).
Proof.
  unfold action_resetAngles. cbv zeta. cbn [params set_params running set_state].
  destruct (running (params s)); reflexivity.
Qed.

(** C4, as stated, fails: the reset-angles action leaves [timerMs] as it
    was, here at the 50 ms of the first frame. *)
Lemma C4_timer_survives_resetAngles :
  timerMs (state (params world_elapsed)) = Fin 50 /\
  timerMs (state (params (action_resetAngles world_elapsed))) = Fin 50 /\
  timerMs (state (params (action_resetAngles world_elapsed))) <> Fin 0.
Proof.
  assert (Ht : timerMs (state (params world_elapsed)) = Fin 50).
  { unfold world_elapsed. rewrite step_params. cbn. f_equal.
    unfold Rmin, Rmax. repeat destruct (Rle_dec _ _); lra. }
  rewrite resetAngles_timer, Ht. repeat split. intros [= Habs]. lra.
Qed.

(** C4, amended: the reset-angles action sets the three angles
    [thetaGlobal], [thetaTop], [thetaBottom] to zero, leaves [timerMs], the
    other parameters and the trails canvas unchanged, and leaves the traced
    points unchanged while running; while paused it re-renders, which sets
    previous and current of every point to its position in the geometry of
    the zeroed angles. *)
Theorem C4_resetAngles (s : World) :
  thetaGlobal (state (params (action_resetAngles s))) = Fin 0 /\
  thetaTop (state (params (action_resetAngles s))) = Fin 0 /\
  thetaBottom (state (params (action_resetAngles s))) = Fin 0 /\
  timerMs (state (params (action_resetAngles s))) = timerMs (state (params s)) /\
  running (params (action_resetAngles s)) = running (params s) /\
  motion (params (action_resetAngles s)) = motion (params s) /\
  geometry (params (action_resetAngles s)) = geometry (params s) /\
  trails (params (action_resetAngles s)) = trails (params s) /\
  trailsCanvas (action_resetAngles s) = trailsCanvas s /\
  points (action_resetAngles s) =
    (if running (params s) then points s
     else map (fun p =>
                 {| id := id p;
                    prev := Some (nextPositions (getGeometry (zeroed_angles s)) (id p));
                    now := Some (nextPositions (getGeometry (zeroed_angles s)) (id p)) |})
              (points s)).
Proof.
  unfold action_resetAngles. cbv zeta. cbn [params set_params running set_state].
  destruct (running (params s)) eqn:Hrun; cbn; rewrite ?Hrun; repeat split; reflexivity.
Qed.

(** C10, as stated, fails while paused: the clear-trails action re-renders
    after clearing, so the four points end up set, not absent. *)
Lemma C10_paused_points_not_absent :
  running (params world_paused) = false /\
  ~ Forall absent (points (action_clearTrails world_paused)).
Proof.
  split; [reflexivity |].
  intros Habs. inversion Habs as [| p ps [Hprev _] _ Heq]. discriminate Hprev.
Qed.

(** C10, amended: the clear-trails action, from the GUI or the R key, resets
    [timerMs] to zero, blanks the trails canvas and leaves the three angles
    and the other parameters unchanged; while running it leaves all traced
    points absent; while paused it then re-renders, which sets previous and
    current of every point to its position in the current geometry. *)
Theorem C10_clearTrails_action (s : World) :
  timerMs (state (params (action_clearTrails s))) = Fin 0 /\
  thetaGlobal (state (params (action_clearTrails s))) = thetaGlobal (state (params s)) /\
  thetaTop (state (params (action_clearTrails s))) = thetaTop (state (params s)) /\
  thetaBottom (state (params (action_clearTrails s))) = thetaBottom (state (params s)) /\
  running (params (action_clearTrails s)) = running (params s) /\
  motion (params (action_clearTrails s)) = motion (params s) /\
  geometry (params (action_clearTrails s)) = geometry (params s) /\
  trails (params (action_clearTrails s)) = trails (params s) /\
  trailsCanvas (action_clearTrails s) = [] /\
  points (action_clearTrails s) =
    (if running (params s)
     then map (fun p => {| id := id p; prev := None; now := None |}) (points s)
     else map (fun p =>
                 {| id := id p;
                    prev := Some (nextPositions (getGeometry s) (id p));
                    now := Some (nextPositions (getGeometry s) (id p)) |})
              (points s)) /\
  (forall setValue : bool -> World -> World,
      onKeyDown setValue {| code := "KeyR"; key := "r" |} s = action_clearTrails s /\
      onKeyDown setValue {| code := "KeyR"; key := "R" |} s = action_clearTrails s).
Proof.
  unfold action_clearTrails. cbv zeta. cbn [params set_params running set_state clearTrails
    set_trailsCanvas set_points].
  destruct (running (params s)) eqn:Hrun; cbn; rewrite ?Hrun.
  - repeat split; try reflexivity;
      unfold onKeyDown, action_clearTrails; cbn; rewrite Hrun; reflexivity.
  - repeat split; try reflexivity; try (rewrite map_map; reflexivity);
      unfold onKeyDown, action_clearTrails; cbn; rewrite Hrun; reflexivity.
Qed.

(** ** Accumulation of the angles *)




(** The effective step is a finite number that is not negative, for a
    raw delta other than NaN and a ceiling and time scale that are finite
    and not negative. *)
Lemma effective_step_nonneg (dt : number) (p : Params) (ts c : R) :
  isNaN dt = false ->
  timeScale (motion p) = Fin ts -> dtClampMax (motion p) = Fin c ->
  0 <= ts -> 0 <= c ->
  exists d, effective_step dt p = Fin d /\ 0 <= d.
Proof.
  intros Hdt Hts Hc Htspos Hcpos. unfold effective_step. rewrite Hts, Hc.
  destruct (clamp_bounds dt (Fin c) Hdt (leb_Fin_true 0 c Hcpos)) as (Hlo & Hhi).
  destruct (clamp dt 0 (Fin c)) as [| | | k]; try discriminate.
  apply leb_Fin_inv in Hlo. exists (k * ts). split; [reflexivity | nra].
Qed.


Section DoubleAbsorption.

Import PrimFloat.


End DoubleAbsorption.



(** ** The vortex velocity field *)

Lemma denominator_pos (dx dy eps : R) : 0 < eps -> 0 < PI * 2 * (dx * dx + dy * dy + eps).
Proof.
  intros Heps. pose proof PI_RGT_0 as Hpi.
  apply Rmult_lt_0_compat; [lra | nra].
Qed.

(** [velocityAt] on finite inputs with a positive [epsilon]. *)
Lemma velocityAt_finite (vx vy g px py eps : R) (out : Vec2) :
  0 < eps ->
  Vortex.velocityAt (Vortex.mkVortex {| x := Fin vx; y := Fin vy |} (Fin g))
                    {| x := Fin px; y := Fin py |} (Fin eps) out
  = {| x := Fin (g / (PI * 2 * ((px - vx) * (px - vx) + (py - vy) * (py - vy) + eps))
                 * - (py - vy));
       y := Fin (g / (PI * 2 * ((px - vx) * (px - vx) + (py - vy) * (py - vy) + eps))
                 * (px - vx)) |}.
Proof.
  intros Heps.
  unfold Vortex.velocityAt, Vortex.TWO_PI, Math_PI, Utils.set.
  cbn [Vortex.position Vortex.gamma x y JS.sub JS.mul JS.add JS.neg].
  rewrite div_Fin by (pose proof (denominator_pos (px - vx) (py - vy) eps Heps); lra).
  reflexivity.
Qed.

Section DoubleOverflow.

Import PrimFloat.

(** C9, as stated, fails in two ways.  For an evaluation point with an
    infinite coordinate the denominator is +Infinity, the quotient is 0 and
    the component [0 * dx] written to [out] is NaN.  And in the doubles of
    the program a very small positive [epsilon] is not enough at finite
    points either: at [epsilon = 2^-1070], for the vortex of circulation
    300000 at (400, 300) evaluated at its own position, the denominator is
    positive but the quotient [gamma / denominator] overflows to Infinity,
    and both components written to [out] are NaN (Infinity times zero). *)
Lemma C9_velocity_components_nan :
  ((Vortex.denominator (Vortex.mkVortex {| x := 400; y := 300 |} 300000)
                       {| x := PosInf; y := 300 |} EPSILON >? 0)%js = true /\
   isNaN (y (Vortex.velocityAt (Vortex.mkVortex {| x := 400; y := 300 |} 300000)
                               {| x := PosInf; y := 300 |} EPSILON
                               {| x := 0; y := 0 |})) = true) /\
  (PrimFloat.ltb 0
     (Binary64.denominator (Binary64.mkVec2 400 300) (Binary64.mkVec2 400 300)
                           0x1p-1070)%float = true /\
   PrimFloat.is_nan
     (Binary64.x (Binary64.velocityAt (Binary64.mkVec2 400 300) 300000
                                      (Binary64.mkVec2 400 300) 0x1p-1070))%float = true /\
   PrimFloat.is_nan
     (Binary64.y (Binary64.velocityAt (Binary64.mkVec2 400 300) 300000
                                      (Binary64.mkVec2 400 300) 0x1p-1070))%float = true).
Proof.
  split; [| repeat split; vm_compute; reflexivity].
  assert (Hpi : Reqb (PI * 2) 0 = false).
  { apply Reqb_false. pose proof PI_RGT_0. lra. }
  assert (Hsign : inf_signed (PI * 2) = PosInf).
  { unfold inf_signed. rewrite Rltb_true; [reflexivity |]. pose proof PI_RGT_0. lra. }
  unfold Vortex.denominator, Vortex.velocityAt, Vortex.TWO_PI, Math_PI, Utils.set, EPSILON.
  cbn [Vortex.position Vortex.gamma x y JS.sub JS.mul JS.add JS.neg JS.div isNaN].
  rewrite Hpi, Hsign. cbn. rewrite Reqb_true by reflexivity. split; reflexivity.
Qed.

End DoubleOverflow.

(** C9, amended: for every vortex and evaluation point with finite
    coordinates and every finite [epsilon > 0], the denominator
    [TWO_PI * (dx*dx + dy*dy + epsilon)] of [velocityAt] is strictly positive,
    never zero or NaN, also where the point is the vortex position.  When
    moreover [epsilon >= 1] (the program's [EPSILON] is 25) and the four
    coordinates are at most 1e300 in magnitude, both components written to
    [out] are finite for every finite circulation.  For a smaller [epsilon]
    the quotient can overflow and the components can be NaN. *)
Theorem C9_velocityAt_total (vx vy g px py eps : R) (out : Vec2) :
  0 < eps ->
  let v := Vortex.mkVortex {| x := vx; y := vy |} g in
  let point := {| x := px; y := py |} in
  (Vortex.denominator v point eps >? 0)%js = true /\
  (1 <= eps -> moderate vx -> moderate vy -> moderate px -> moderate py ->
   isFinite (x (Vortex.velocityAt v point eps out)) = true /\
   isFinite (y (Vortex.velocityAt v point eps out)) = true).
Proof.
  intros Heps v point. split.
  - unfold Vortex.denominator, Vortex.TWO_PI, Math_PI.
    cbn [Vortex.position v point x y JS.sub JS.mul JS.add].
    apply gtb_Fin_true. now apply denominator_pos.
  - intros _ _ _ _ _. unfold v, point.
    rewrite (velocityAt_finite vx vy g px py eps out Heps). split; reflexivity.
Qed.

(** C9 with the program's [EPSILON = 25] at a point on the centre vortex. *)
Lemma C9_velocityAt_total_witness :
  isFinite (x (Vortex.velocityAt (Vortex.mkVortex {| x := 400; y := 300 |} 300000)
                 {| x := 400; y := 300 |} EPSILON {| x := 0; y := 0 |})) = true /\
  isFinite (y (Vortex.velocityAt (Vortex.mkVortex {| x := 400; y := 300 |} 300000)
                 {| x := 400; y := 300 |} EPSILON {| x := 0; y := 0 |})) = true.
Proof.
  refine (proj2 (C9_velocityAt_total 400 300 300000 400 300 25 {| x := 0; y := 0 |} _)
            _ _ _ _ _); unfold moderate; rewrite ?Rabs_pos_eq by lra; lra.
Defined.

(** * Further properties of the code *)

(** ** The integrator under large, negative and ordinary deltas *)

Lemma isFinite_inv (a : number) : isFinite a = true -> exists r, a = Fin r.
Proof. destruct a as [| | | r]; try discriminate. intros _. now exists r. Qed.

Lemma clamp_above (dt c : number) :
  (0 <=? c)%js = true -> (c <=? dt)%js = true -> clamp dt 0 c = c.
Proof.
  intros Hc Hdt. unfold clamp.
  destruct c as [| | | c]; try discriminate;
    destruct dt as [| | | r]; try discriminate; cbn [Math_max Math_min];
    try reflexivity.
  apply leb_Fin_inv in Hc. apply leb_Fin_inv in Hdt. f_equal.
  rewrite Rmax_left by lra. now apply Rmin_right.
Qed.

Lemma clamp_below (dt c : number) :
  (0 <=? c)%js = true -> (dt <=? 0)%js = true -> clamp dt 0 c = Fin 0.
Proof.
  intros Hc Hdt. unfold clamp.
  destruct c as [| | | c]; try discriminate;
    destruct dt as [| | | r]; try discriminate; cbn [Math_max Math_min];
    try apply leb_Fin_inv in Hc; try apply leb_Fin_inv in Hdt.
  - reflexivity.
  - now rewrite Rmax_right.
  - f_equal. now apply Rmin_left.
  - f_equal. rewrite Rmax_right by lra. now apply Rmin_left.
Qed.

Lemma step_congruence (dt dt' : number) (s : World) :
  integrate dt (params s) = integrate dt' (params s) -> step dt s = step dt' s.
Proof. intros Heq. unfold step. now rewrite Heq. Qed.

(** X1: a raw delta at or above the ceiling [dtClampMax >= 0], +Infinity
    included, gives exactly the frame that the ceiling itself gives: the
    whole world after [step] is the same. *)
Theorem X1_step_saturates (dt : number) (s : World) :
  (0 <=? dtClampMax (motion (params s)))%js = true ->
  (dtClampMax (motion (params s)) <=? dt)%js = true ->
  step dt s = step (dtClampMax (motion (params s))) s.
Proof.
  intros Hc Hdt. apply step_congruence. unfold integrate.
  rewrite (clamp_above dt _ Hc Hdt).
  rewrite (clamp_above (dtClampMax (motion (params s))) _ Hc); [reflexivity |].
  destruct (dtClampMax (motion (params s))) as [| | | c]; try discriminate;
    [reflexivity |]. apply leb_Fin_true. lra.
Qed.

(** X1 for a stall of 10000 seconds under the default ceiling of 0.05. *)
Lemma X1_step_saturates_witness : step 10000 world0 = step 0.05 world0.
Proof.
  refine (X1_step_saturates 10000 world0 _ _); apply leb_Fin_true; lra.
Defined.

(** X2: a raw delta that is zero, negative or -Infinity leaves the three
    angles and the timer exactly as they were, provided the ceiling is not
    negative and the kinematic parameters and state are finite. *)
Theorem X2_step_nonpositive_delta (dt : number) (s : World) :
  (0 <=? dtClampMax (motion (params s)))%js = true ->
  (dt <=? 0)%js = true ->
  finite_kinematics (params s) ->
  state (params (step dt s)) = state (params s).
Proof.
  intros Hc Hdt (Hts & Hom & Hth & Htm).
  rewrite step_params. unfold integrate. rewrite (clamp_below dt _ Hc Hdt).
  destruct (isFinite_inv _ Hts) as (ts & ->).
  destruct (isFinite_inv _ (Hom AGlobal)) as (og & Hog).
  destruct (isFinite_inv _ (Hom ATop)) as (ot & Hot).
  destruct (isFinite_inv _ (Hom ABottom)) as (ob & Hob).
  destruct (isFinite_inv _ (Hth AGlobal)) as (tg & Htg).
  destruct (isFinite_inv _ (Hth ATop)) as (tt & Htt).
  destruct (isFinite_inv _ (Hth ABottom)) as (tb & Htb).
  destruct (isFinite_inv _ Htm) as (tm & Htm').
  cbn [omega_of theta_of] in *.
  destruct (state (params s)) as [g t b m]. cbn in *. subst.
  rewrite Hog, Hot, Hob. cbn. repeat f_equal; ring.
Qed.

Lemma world0_finite_kinematics : finite_kinematics (params world0).
Proof. repeat split; intros []; reflexivity. Qed.

(** X2 for a frame whose timestamp went back by 16 ms. *)
Lemma X2_step_nonpositive_delta_witness :
  state (params (step (-0.016) world0)) = state (params world0).
Proof.
  refine (X2_step_nonpositive_delta (-0.016) world0 _ _ world0_finite_kinematics);
    apply leb_Fin_true; lra.
Defined.

(** X3: whatever the raw delta (NaN excepted), no [step] moves the timer
    backwards, and none moves an angle against the sign of its angular
    velocity: with [omega >= 0] the angle does not decrease, with
    [omega <= 0] it does not increase.  This holds for a finite ceiling and
    time scale that are not negative, with [dtClampMax * timeScale <= 1e300]
    (in doubles the effective step is then finite, and its product with a
    zero [omega] is 0), and a finite angle, angular velocity and timer. *)
Theorem X3_step_never_backwards
    (a : Angle) (s : World) (dt : number) (ts c theta omega timer : R) :
  isNaN dt = false ->
  timeScale (motion (params s)) = Fin ts ->
  dtClampMax (motion (params s)) = Fin c ->
  0 <= ts -> 0 <= c -> c * ts <= 1e300 ->
  theta_of a (state (params s)) = Fin theta ->
  omega_of a (motion (params s)) = Fin omega ->
  timerMs (state (params s)) = Fin timer ->
  (timerMs (state (params s)) <=? timerMs (state (params (step dt s))))%js = true /\
  (0 <= omega ->
   (theta_of a (state (params s)) <=? theta_of a (state (params (step dt s))))%js
   = true) /\
  (omega <= 0 ->
   (theta_of a (state (params (step dt s))) <=? theta_of a (state (params s)))%js
   = true).
Proof.
  intros Hdt Hts Hc Htspos Hcpos _ Htheta Homega Htimer.
  destruct (effective_step_nonneg dt (params s) ts c Hdt Hts Hc Htspos Hcpos)
    as (d & Hd & Hdpos).
  rewrite step_params, integrate_theta, Htheta, Homega, Hd.
  unfold integrate. fold (effective_step dt (params s)).
  cbn [state set_state timerMs]. rewrite Htimer, Hd. cbn [JS.add JS.mul].
  split; [| split].
  - apply leb_Fin_true. lra.
  - intros Ho. apply leb_Fin_true. nra.
  - intros Ho. apply leb_Fin_true. nra.
Qed.

(** X3 on the timer of the default program after an infinite stall. *)
Lemma X3_step_never_backwards_witness :
  (timerMs (state (params world0)) <=? timerMs (state (params (step PosInf world0))))%js
  = true.
Proof.
  refine (proj1 (X3_step_never_backwards AGlobal world0 PosInf 1 0.05 0 0.45 0
                   eq_refl eq_refl eq_refl _ _ _ eq_refl eq_refl eq_refl)); lra.
Defined.

(** ** Vectors and the rigid arms *)

(** X4: [dist] is symmetric and never negative for all numbers, NaN and the
    infinities included, and is zero from a finite point to itself. *)
Theorem X4_dist_metric :
  (forall a b : Vec2, dist a b = dist b a) /\
  (forall a b : Vec2, JS.ltb (dist a b) 0 = false) /\
  (forall ax ay : R, dist {| x := ax; y := ay |} {| x := ax; y := ay |} = Fin 0).
Proof.
  split; [| split].
  - intros [[| | | ax] [| | | ay]] [[| | | bx] [| | | by']]; cbn; try reflexivity.
    f_equal. f_equal. ring.
  - intros [[| | | ax] [| | | ay]] [[| | | bx] [| | | by']]; cbn; try reflexivity.
    apply Rltb_false, sqrt_pos.
  - intros ax ay. cbn. f_equal.
    replace ((ax - ax) * (ax - ax) + (ay - ay) * (ay - ay)) with 0 by ring.
    apply sqrt_0.
Qed.

(** X5: [rotate] is odd in the vector for all numbers and angles (rotating
    the negated vector gives the negated rotation), it is the identity at
    angle 0 on finite vectors, and it keeps the zero vector at every finite
    angle. *)
Theorem X5_rotate_odd :
  (forall (v : Vec2) (angleRad : number),
      rotate (negate v) angleRad = negate (rotate v angleRad)) /\
  (forall vx vy : R,
      rotate {| x := Fin vx; y := Fin vy |} (Fin 0) = {| x := Fin vx; y := Fin vy |}) /\
  (forall angle : R,
      rotate {| x := Fin 0; y := Fin 0 |} (Fin angle) = {| x := Fin 0; y := Fin 0 |}).
Proof.
  split; [exact rotate_negate |].
  cbv [rotate x y Math_cos Math_sin JS.mul JS.sub JS.add]. split.
  - intros vx vy. rewrite cos_0, sin_0. f_equal; f_equal; ring.
  - intros angle. f_equal; f_equal; ring.
Qed.

(** The whole geometry in closed form for finite inputs. *)
Lemma getGeometry_finite (s : World) :
  finite_geometry s ->
  exists W H ra rl tg at' ab : R,
    w s = Fin W /\ h s = Fin H /\
    axisOffsetRatio (geometry (params s)) = Fin ra /\
    armLenRatio (geometry (params s)) = Fin rl /\
    thetaGlobal (state (params s)) = Fin tg /\
    getGeometry s =
    {| center := {| x := Fin (W / 2); y := Fin (H / 2) |};
       topAxis := {| x := Fin (W / 2 + ra * Rmin W H * sin tg);
                     y := Fin (H / 2 - ra * Rmin W H * cos tg) |};
       bottomAxis := {| x := Fin (W / 2 - ra * Rmin W H * sin tg);
                        y := Fin (H / 2 + ra * Rmin W H * cos tg) |};
       g_topL := {| x := Fin (W / 2 + ra * Rmin W H * sin tg - rl * Rmin W H * cos at');
                    y := Fin (H / 2 - ra * Rmin W H * cos tg - rl * Rmin W H * sin at') |};
       g_topR := {| x := Fin (W / 2 + ra * Rmin W H * sin tg + rl * Rmin W H * cos at');
                    y := Fin (H / 2 - ra * Rmin W H * cos tg + rl * Rmin W H * sin at') |};
       g_botL := {| x := Fin (W / 2 - ra * Rmin W H * sin tg - rl * Rmin W H * cos ab);
                    y := Fin (H / 2 + ra * Rmin W H * cos tg - rl * Rmin W H * sin ab) |};
       g_botR := {| x := Fin (W / 2 - ra * Rmin W H * sin tg + rl * Rmin W H * cos ab);
                    y := Fin (H / 2 + ra * Rmin W H * cos tg + rl * Rmin W H * sin ab) |} |}.
Proof.
  intros (Hw & Hh & Hra & Hrl & Hpt & Hpb & Hth).
  destruct (isFinite_inv _ Hw) as (W & HW).
  destruct (isFinite_inv _ Hh) as (H & HH).
  destruct (isFinite_inv _ Hra) as (ra & Hra').
  destruct (isFinite_inv _ Hrl) as (rl & Hrl').
  destruct (isFinite_inv _ Hpt) as (pt & Hpt').
  destruct (isFinite_inv _ Hpb) as (pb & Hpb').
  destruct (isFinite_inv _ (Hth AGlobal)) as (tg & Htg).
  destruct (isFinite_inv _ (Hth ATop)) as (tt & Htt).
  destruct (isFinite_inv _ (Hth ABottom)) as (tb & Htb).
  cbn [theta_of] in Htg, Htt, Htb.
  exists W, H, ra, rl, tg, (tg + tt + pt * PI / 180), (tg + tb + pb * PI / 180).
  repeat (split; [assumption |]).
  unfold getGeometry, degToRad, Math_PI.
  rewrite HW, HH, Hra', Hrl', Hpt', Hpb', Htg, Htt, Htb.
  cbv [add rotate x y Math_min Math_cos Math_sin JS.add JS.sub JS.mul JS.neg JS.div].
  rewrite ?(Reqb_false 2 0), ?(Reqb_false 180 0) by lra. cbv beta iota.
  f_equal; f_equal; f_equal; ring.
Qed.


(** X7: in a viewport whose smaller side is 0 the geometry degenerates
    without failing: both axes and the four traced points coincide with the
    centre, for all finite parameters and for angles and phase offsets of
    moderate size (at most 1e300 in magnitude, so that the arm angles are
    finite in doubles too). *)
Theorem X7_zero_viewport (s : World) :
  finite_geometry s ->
  moderate_angles s ->
  Math_min (w s) (h s) = Fin 0 ->
  let g := getGeometry s in
  topAxis g = center g /\ bottomAxis g = center g /\
  g_topL g = center g /\ g_topR g = center g /\
  g_botL g = center g /\ g_botR g = center g.
Proof.
  intros Hfin _ Hmin g.
  destruct (getGeometry_finite s Hfin)
    as (W & H & ra & rl & tg & at' & ab & HW & HH & Hra & Hrl & Htg & Hg).
  rewrite HW, HH in Hmin. cbn in Hmin. apply Fin_inj in Hmin.
  unfold g. rewrite Hg, Hmin. cbn.
  repeat split; f_equal; f_equal; ring.
Qed.

Lemma moderate_0 : moderate 0.
Proof. unfold moderate. rewrite Rabs_R0. lra. Qed.

(** X7 for a window collapsed to zero height. *)
Lemma X7_zero_viewport_witness :
  topAxis (getGeometry (fresh_world defaultParams 800 0))
  = center (getGeometry (fresh_world defaultParams 800 0)).
Proof.
  refine (proj1 (X7_zero_viewport (fresh_world defaultParams 800 0) _ _ _)).
  - repeat split; try intros []; reflexivity.
  - repeat split; try intros []; exact moderate_0.
  - cbn. f_equal. apply Rmin_right. lra.
Defined.

(** ** What a frame paints *)

Lemma update_short (p : TracedPoint) (next : Vec2) (maxSegment : number) :
  exists a : Vec2,
    prev (update p next maxSegment) = Some a /\
    now (update p next maxSegment) = Some next /\
    (a = next \/ (dist a next >? maxSegment)%js = false).
Proof.
  unfold update. destruct (now p) as [cur |].
  - destruct (dist cur next >? maxSegment)%js eqn:Hjump; cbn.
    + exists next. auto.
    + exists cur. auto.
  - exists next. cbn. auto.
Qed.

Lemma stroke_of_draw (q p : TracedPoint) (s : World) :
  stroke_of (drawTrailSegment q s) p = stroke_of s p.
Proof. unfold stroke_of. now rewrite drawTrailSegment_params. Qed.

Lemma drawTrailSegment_canvas (p : TracedPoint) (s : World) :
  trailsCanvas (drawTrailSegment p s) = trailsCanvas s ++ stroke_of s p.
Proof.
  unfold drawTrailSegment, stroke_of.
  destruct (prev p), (now p); cbn; try reflexivity; now rewrite app_nil_r.
Qed.

Lemma fold_draw_canvas (ps : list TracedPoint) (s : World) :
  trailsCanvas (fold_left (fun acc p => drawTrailSegment p acc) ps s)
  = trailsCanvas s ++ flat_map (stroke_of s) ps.
Proof.
  revert s. induction ps as [| p ps IH]; intros s; cbn.
  - now rewrite app_nil_r.
  - rewrite IH, drawTrailSegment_canvas, <- app_assoc. f_equal. f_equal.
    apply flat_map_ext. intros q. apply stroke_of_draw.
Qed.

Lemma strokes_of_updated (s : World) (f : TracedPoint -> Vec2) (maxSegment : number)
    (ps : list TracedPoint) :
  List.length (flat_map (stroke_of s) (map (fun p => update p (f p) maxSegment) ps))
  = List.length ps /\
  Forall (short_stroke maxSegment)
         (flat_map (stroke_of s) (map (fun p => update p (f p) maxSegment) ps)).
Proof.
  induction ps as [| p ps [IHlen IHshort]]; cbn; [split; [reflexivity | constructor] |].
  destruct (update_short p (f p) maxSegment) as (a & Hprev & Hnow & Hshort).
  unfold stroke_of at 1 3. rewrite Hprev, Hnow. cbn. split.
  - now rewrite IHlen.
  - constructor; assumption.
Qed.

Lemma gtb_false_leb (a b : number) :
  (a >? b)%js = false -> isNaN b = true \/ isNaN a = true \/ (a <=? b)%js = true.
Proof.
  unfold gtb. destruct a, b; cbn; auto; intros ->; auto.
Qed.

Lemma short_stroke_bounded (maxSegment : number) (op : TrailOp) :
  short_stroke maxSegment op -> bounded_stroke maxSegment op.
Proof.
  destruct op as [f | i a b wd al ps]; [trivial |].
  intros [Heq | Hcmp]; [now left | right]. now apply gtb_false_leb.
Qed.

(** X8: every [step] appends to the trails canvas one fade followed by one
    stroke per traced point, and each of these strokes has coinciding ends,
    or is no longer than the jump threshold [maxSegmentRatio * min(w, h)] of
    that frame ([dist <= maxSegment]), or was compared with a NaN: the
    threshold or the distance between its ends is NaN.  So no frame paints
    a long tail unless a NaN is involved; and a NaN threshold
    ([?maxSegmentRatio=NaN]) does switch the suppression off: [update] then
    links the old position to the new one however far apart they are. *)
Theorem X8_step_paints_short_strokes (dt : number) (s : World) :
  (exists strokes : list TrailOp,
      trailsCanvas (step dt s)
      = trailsCanvas s ++ Fade (fadeAlpha (trails (params s))) :: strokes /\
      List.length strokes = List.length (points s) /\
      Forall (bounded_stroke
                (maxSegmentRatio (trails (params s)) * Math_min (w s) (h s))%js)
             strokes) /\
  (forall (i : PointId) (pr : option Vec2) (cur next : Vec2),
      update {| id := i; prev := pr; now := Some cur |} next NaN
      = {| id := i; prev := Some cur; now := Some next |}).
Proof.
  split.
  - unfold step, drawOverlay. cbn [trailsCanvas set_overlayCanvas].
    rewrite fold_draw_canvas.
    eexists. split.
    + unfold fadeTrails. cbn [trailsCanvas set_trailsCanvas points set_points
        params set_params trails integrate set_state].
      rewrite <- app_assoc. cbn [app]. reflexivity.
    + match goal with
      | |- context [flat_map (stroke_of ?s') (map ?f ?ps)] =>
          pose proof (strokes_of_updated s'
                        (fun p => nextPositions (getGeometry s') (id p))
                        (maxSegmentRatio (trails (params s)) * Math_min (w s) (h s))%js
                        ps) as [Hlen Hshort]
      end.
      split; [exact Hlen |].
      eapply Forall_impl; [| exact Hshort]. intros op. apply short_stroke_bounded.
  - intros i pr cur next. unfold update. cbn [now].
    assert (Hcmp : (dist cur next >? NaN)%js = false).
    { unfold gtb. destruct (dist cur next); reflexivity. }
    rewrite Hcmp. reflexivity.
Qed.

(** X9: the first frame after [clearTrails] sets every traced point with
    previous equal to current, so it paints no connecting segment. *)
Theorem X9_first_frame_after_clear (dt : number) (s : World) :
  Forall (fun p => prev p = now p /\ now p <> None)
         (points (step dt (clearTrails s))).
Proof.
  rewrite step_points. cbv zeta. cbn [points clearTrails set_points set_trailsCanvas
    set_params]. rewrite map_map. apply Forall_map_all. intros a.
  unfold update. cbn. split; [reflexivity | discriminate].
Qed.

Lemma frame_paused (t : number) (s : World) :
  running (params s) = false -> frame t s = set_lastT t s.
Proof. intros Hrun. unfold frame. cbn. now rewrite Hrun. Qed.

Lemma last_cons {A : Type} (l : list A) (a d : A) : last (a :: l) d = last l a.
Proof.
  revert a d. induction l as [| b l IH]; intros a d; [reflexivity |].
  change (last (a :: b :: l) d) with (last (b :: l) d).
  now rewrite !IH.
Qed.

(** X10: while paused, any run of frames changes nothing but [lastT], which
    follows the latest timestamp: angles, timer, traced points and both
    canvases are frozen, and the frame after resuming measures its delta from
    the last paused frame, not from the moment of pausing. *)
Theorem X10_paused_frames_freeze (ts : list number) (s : World) :
  running (params s) = false ->
  frames ts s = set_lastT (last ts (lastT s)) s.
Proof.
  unfold frames. revert s. induction ts as [| t ts IH]; intros s Hrun.
  - destruct s; reflexivity.
  - cbn [fold_left]. rewrite (frame_paused t s Hrun).
    rewrite IH by exact Hrun. rewrite last_cons. reflexivity.
Qed.

(** X10 for three frames of the paused default program. *)
Lemma X10_paused_frames_freeze_witness :
  frames [Fin 16; Fin 33; Fin 50] world_paused = set_lastT (Fin 50) world_paused.
Proof.
  exact (X10_paused_frames_freeze [Fin 16; Fin 33; Fin 50] world_paused eq_refl).
Defined.

(** ** Re-rendering and the reset actions *)

Lemma sync_sync (g g' : Geometry) (s : World) :
  points (syncPointsToGeometry g (syncPointsToGeometry g' s))
  = points (syncPointsToGeometry g s).
Proof. cbn. rewrite map_map. reflexivity. Qed.

(** X11: [renderPausedState] is idempotent: re-rendering an already
    re-rendered paused world changes nothing, so repeated GUI changes or
    resizes while paused never accumulate state. *)
Theorem X11_renderPausedState_idempotent (s : World) :
  renderPausedState (renderPausedState s) = renderPausedState s.
Proof.
  unfold renderPausedState, drawOverlay, syncPointsToGeometry, set_overlayCanvas,
    set_points. cbn. rewrite map_map. reflexivity.
Qed.

(** X12: [resetAll] does not depend on the order of its two parts: resetting
    the angles and then clearing the trails gives the same world as clearing
    first and resetting second, running or paused. *)
Theorem X12_resetAll_order (s : World) :
  action_resetAll s = action_resetAngles (action_clearTrails s).
Proof.
  destruct s as [[[] m g t st] vw vh ps tc oc lt];
    cbv [action_resetAll action_resetAngles action_clearTrails renderPausedState
         drawOverlay syncPointsToGeometry clearTrails set_params set_state
         set_points set_trailsCanvas set_overlayCanvas params running state
         points negb timerMs w h trailsCanvas overlayCanvas lastT motion geometry
         trails];
    rewrite ?map_map; reflexivity.
Qed.

(** X13: the clear-trails action, the reset-angles action and [resetAll] are
    each idempotent: a second press changes nothing. *)
Theorem X13_reset_actions_idempotent (s : World) :
  action_clearTrails (action_clearTrails s) = action_clearTrails s /\
  action_resetAngles (action_resetAngles s) = action_resetAngles s /\
  action_resetAll (action_resetAll s) = action_resetAll s.
Proof.
  destruct s as [[[] m g t st] vw vh ps tc oc lt];
    cbv [action_resetAll action_resetAngles action_clearTrails renderPausedState
         drawOverlay syncPointsToGeometry clearTrails set_params set_state
         set_points set_trailsCanvas set_overlayCanvas params running state
         points negb timerMs w h trailsCanvas overlayCanvas lastT motion geometry
         trails thetaGlobal thetaTop thetaBottom];
    rewrite ?map_map; repeat split; reflexivity.
Qed.

(** ** Resizing *)

Lemma Int_part_IZR (z : Z) : Int_part (IZR z) = z.
Proof. symmetry. apply Int_part_spec. lra. Qed.

(** X14: [resize] is idempotent for a given window size: a second resize
    event with the same inner width and height leaves the world of the first
    one, running or paused; and after a resize the trails canvas is blank
    and the parameters, angles and timer are as before. *)
Theorem X14_resize_idempotent (innerWidth innerHeight : number) (s : World) :
  resize (Some afterResize_installed) innerWidth innerHeight
    (resize (Some afterResize_installed) innerWidth innerHeight s)
  = resize (Some afterResize_installed) innerWidth innerHeight s /\
  trailsCanvas (resize (Some afterResize_installed) innerWidth innerHeight s) = [] /\
  params (resize (Some afterResize_installed) innerWidth innerHeight s) = params s.
Proof.
  destruct s as [[[] m g t st] vw vh ps tc oc lt];
    cbv [resize afterResize_installed renderPausedState drawOverlay
         syncPointsToGeometry set_viewport set_params set_points set_trailsCanvas
         set_overlayCanvas params running state points negb timerMs w h
         trailsCanvas overlayCanvas lastT];
    rewrite ?map_map; repeat split; reflexivity.
Qed.

(** X15: a resize while paused leaves every traced point with previous and
    current both on its position in the geometry of the new viewport, so the
    frame after resuming starts from the resized picture and no segment
    spans the old and the new layout. *)
Theorem X15_paused_resize_resyncs (innerWidth innerHeight : number) (s : World) :
  running (params s) = false ->
  let s' := resize (Some afterResize_installed) innerWidth innerHeight s in
  w s' = Math_floor innerWidth /\ h s' = Math_floor innerHeight /\
  Forall (fun p => prev p = Some (nextPositions (getGeometry s') (id p)) /\
                   now p = Some (nextPositions (getGeometry s') (id p)))
         (points s').
Proof.
  intros Hrun s'. unfold s', resize, afterResize_installed.
  cbn [params set_overlayCanvas set_trailsCanvas set_viewport running].
  rewrite Hrun. cbn [negb]. repeat split.
  unfold renderPausedState, drawOverlay.
  cbn [points set_overlayCanvas syncPointsToGeometry set_points].
  apply Forall_map_all. intros a. cbn. split; reflexivity.
Qed.

(** X15 for the paused default program resized to 640.5 x 480.25. *)
Lemma X15_paused_resize_resyncs_witness :
  w (resize (Some afterResize_installed) 640.5 480.25 world_paused)
  = Math_floor 640.5.
Proof.
  exact (proj1 (X15_paused_resize_resyncs 640.5 480.25 world_paused eq_refl)).
Defined.

(** X16: the device pixel ratio that [resize] uses is never NaN and never
    below 1, whatever [window.devicePixelRatio] holds: 0 and NaN fall back
    to 1, fractions are floored, negative values and -Infinity are raised to
    1. *)
Theorem X16_resize_dpr_at_least_one (devicePixelRatio : number) :
  (1 <=? resize_dpr devicePixelRatio)%js = true /\
  resize_dpr NaN = Fin 1 /\ resize_dpr 0 = Fin 1 /\ resize_dpr NegInf = Fin 1.
Proof.
  assert (H1 : Int_part 1 = 1%Z) by apply (Int_part_IZR 1).
  assert (Hone : Math_max 1 (Math_floor 1) = Fin 1).
  { cbn. rewrite H1. f_equal. apply Rmax_left. lra. }
  repeat split.
  - unfold resize_dpr, or_else.
    destruct devicePixelRatio as [| | | r]; cbn [truthy].
    + rewrite Hone. apply leb_Fin_true. lra.
    + cbn. apply leb_Fin_true. lra.
    + reflexivity.
    + destruct (Reqb r 0); cbn [negb].
      * rewrite Hone. apply leb_Fin_true. lra.
      * cbn [Math_floor Math_max]. apply leb_Fin_true, Rmax_l.
  - unfold resize_dpr, or_else. cbn [truthy]. exact Hone.
  - unfold resize_dpr, or_else. cbn [truthy]. rewrite Reqb_true by reflexivity.
    cbn [negb]. exact Hone.
Qed.

(** ** The timer text *)

Lemma floor_div (m k : Z) :
  (0 < k)%Z -> Int_part (IZR m / IZR k) = (m / k)%Z.
Proof.
  intros Hk. symmetry. apply Int_part_spec.
  assert (HkR : 0 < IZR k) by now apply IZR_lt.
  pose proof (Z.div_mod m k ltac:(lia)) as Hdm.
  pose proof (Z.mod_pos_bound m k Hk) as [Hlo Hhi].
  apply (f_equal IZR) in Hdm. rewrite plus_IZR, mult_IZR in Hdm.
  apply IZR_le in Hlo. apply IZR_lt in Hhi.
  assert (Hq : IZR m / IZR k = IZR (m / k) + IZR (m mod k) / IZR k).
  { rewrite Hdm. field. lra. }
  rewrite Hq.
  assert (0 <= IZR (m mod k) / IZR k < 1).
  { split.
    - apply Rmult_le_pos; [lra |]. left. now apply Rinv_0_lt_compat.
    - apply Rmult_lt_reg_r with (IZR k); [lra |].
      unfold Rdiv. rewrite Rmult_assoc, Rinv_l by lra. lra. }
  lra.
Qed.

Lemma rem_nonneg (m k : Z) :
  (0 <= m)%Z -> (0 < k)%Z ->
  rem (Fin (IZR m)) (Fin (IZR k)) = Fin (IZR (m mod k)).
Proof.
  intros Hm Hk.
  assert (HkR : 0 < IZR k) by now apply IZR_lt.
  assert (HmR : 0 <= IZR m) by now apply IZR_le.
  cbn [rem]. rewrite Reqb_false by lra. f_equal.
  unfold Rtrunc. rewrite Rltb_false.
  - rewrite floor_div by exact Hk. rewrite <- mult_IZR, <- minus_IZR. f_equal.
    pose proof (Z.div_mod m k ltac:(lia)). lia.
  - apply Rmult_le_pos; [exact HmR |]. left. now apply Rinv_0_lt_compat.
Qed.

Lemma Rmax_0_IZR (z : Z) : Rmax 0 (IZR z) = IZR (Z.max 0 z).
Proof.
  destruct (Z.le_gt_cases z 0) as [Hle | Hgt].
  - rewrite Z.max_l by exact Hle. apply Rmax_left. now apply (IZR_le z 0).
  - rewrite Z.max_r by lia. apply Rmax_right. apply (IZR_le 0 z). lia.
Qed.

Lemma timer_fields_finite (r : R) :
  exists mi se ml : Z,
    timer_fields (Fin r) = (Fin (IZR mi), Fin (IZR se), Fin (IZR ml)) /\
    (0 <= mi)%Z /\ (0 <= se <= 59)%Z /\ (0 <= ml <= 999)%Z /\
    (60000 * mi + 1000 * se + ml = Z.max 0 (Int_part r))%Z.
Proof.
  set (m := Z.max 0 (Int_part r)).
  assert (Hm : (0 <= m)%Z) by (unfold m; lia).
  assert (Hms : Math_max 0 (Math_floor (Fin r)) = Fin (IZR m)).
  { cbn. f_equal. unfold m. apply Rmax_0_IZR. }
  exists (m / 60000)%Z, ((m mod 60000) / 1000)%Z, (m mod 1000)%Z.
  unfold timer_fields. rewrite Hms.
  rewrite (rem_nonneg m 60000 Hm ltac:(lia)), (rem_nonneg m 1000 Hm ltac:(lia)).
  rewrite !div_Fin by lra. cbn [Math_floor].
  rewrite (floor_div m 60000 ltac:(lia)).
  rewrite (floor_div (m mod 60000) 1000 ltac:(lia)).
  split; [reflexivity |].
  pose proof (Z.mod_pos_bound m 60000 ltac:(lia)).
  pose proof (Z.mod_pos_bound m 1000 ltac:(lia)).
  pose proof (Z.div_mod m 60000 ltac:(lia)).
  pose proof (Z.div_mod (m mod 60000) 1000 ltac:(lia)).
  assert ((m mod 60000) mod 1000 = m mod 1000)%Z.
  { apply Z.mod_mod_divide. exists 60%Z. lia. }
  repeat split; lia.
Qed.

Lemma timer_fields_special : timer_fields NegInf = (Fin 0, Fin 0, Fin 0).
Proof.
  unfold timer_fields. cbn [Math_floor Math_max].
  rewrite (rem_nonneg 0 60000), (rem_nonneg 0 1000) by lia.
  rewrite !div_Fin by lra. cbn [Math_floor].
  replace (0 / 60000) with 0 by field.
  replace (IZR (0 mod 60000) / 1000) with 0 by (cbn; field).
  rewrite (Int_part_IZR 0). reflexivity.
Qed.

(** X17: for every finite timer value up to 1e15 ms (some 31000 years),
    [formatTimer] prints three integers: minutes, seconds in 0..59 and
    milliseconds in 0..999, which together add up to the floor of the timer,
    or to 0 when that is negative.  A timer of -Infinity prints as 0; NaN
    and +Infinity are not split into fields.  Up to 1e15 the doubles hold
    every whole number of milliseconds and the rounding of the two
    divisions stays below the floor they feed; the number model, being
    exact, does not need the bound. *)
Theorem X17_timer_fields (r : R) :
  r <= 1e15 ->
  (exists mi se ml : Z,
      timer_fields (Fin r) = (Fin (IZR mi), Fin (IZR se), Fin (IZR ml)) /\
      (0 <= mi)%Z /\ (0 <= se <= 59)%Z /\ (0 <= ml <= 999)%Z /\
      (60000 * mi + 1000 * se + ml = Z.max 0 (Int_part r))%Z) /\
  timer_fields NegInf = (Fin 0, Fin 0, Fin 0) /\
  timer_fields NaN = (NaN, NaN, NaN) /\
  timer_fields PosInf = (PosInf, NaN, NaN).
Proof.
  intros _.
  split; [apply timer_fields_finite |].
  split; [apply timer_fields_special |]. split; [reflexivity |].
  unfold timer_fields. cbn [Math_floor Math_max rem JS.div].
  rewrite Reqb_false by lra. unfold inf_signed. rewrite Rltb_true by lra.
  reflexivity.
Qed.

(** X17 for a timer of 61234.5 ms. *)
Lemma X17_timer_fields_witness :
  exists mi se ml : Z,
    timer_fields (Fin 61234.5) = (Fin (IZR mi), Fin (IZR se), Fin (IZR ml)) /\
    (0 <= mi)%Z /\ (0 <= se <= 59)%Z /\ (0 <= ml <= 999)%Z /\
    (60000 * mi + 1000 * se + ml = Z.max 0 (Int_part 61234.5))%Z.
Proof.
  refine (proj1 (X17_timer_fields 61234.5 _)). lra.
Defined.

Lemma length_append (a b : string) :
  String.length (a ++ b) = (String.length a + String.length b)%nat.
Proof. induction a as [| c a IH]; cbn; [reflexivity | now rewrite IH]. Qed.

Lemma length_substring_0 (k : nat) (t : string) :
  (k <= String.length t)%nat -> String.length (substring 0 k t) = k.
Proof.
  revert t. induction k as [| k IH]; intros t Hk.
  - destruct t; reflexivity.
  - destruct t as [| c t]; cbn in *; [lia |]. rewrite IH; [reflexivity | lia].
Qed.

Lemma length_concat_repeat (p : string) (k : nat) :
  (k * String.length p <= String.length (String.concat "" (repeat p k)))%nat.
Proof.
  induction k as [| k IH]; [cbn; lia |].
  destruct k as [| k]; [cbn; lia |].
  change (repeat p (S (S k))) with (p :: p :: repeat p k).
  change (String.concat "" (p :: p :: repeat p k))
    with (p ++ "" ++ String.concat "" (p :: repeat p k))%string.
  change (p :: repeat p k) with (repeat p (S k)).
  rewrite !length_append. cbn [String.length]. lia.
Qed.

Lemma padStart_length (s : string) (targetLength : nat) (padString : string) :
  (exists pre : string, padStart s targetLength padString = (pre ++ s)%string) /\
  String.length (padStart s targetLength padString)
  = (if String.eqb padString "" then String.length s
     else Nat.max (String.length s) targetLength).
Proof.
  unfold padStart.
  destruct (Nat.leb targetLength (String.length s)) eqn:Hle.
  - apply Nat.leb_le in Hle. split; [now exists ""%string |].
    destruct (String.eqb padString ""); [reflexivity | lia].
  - apply Nat.leb_gt in Hle.
    destruct (String.eqb padString "") eqn:Hpad; [split; [now exists ""%string | reflexivity] |].
    split; [eexists; reflexivity |].
    rewrite length_append, length_substring_0; [lia |].
    pose proof (length_concat_repeat padString (targetLength - String.length s)) as Hrep.
    destruct padString as [| c p]; [discriminate |]. cbn [String.length] in Hrep. nia.
Qed.

Lemma padStart_at_least (s : string) (n : nat) (c : ascii) :
  (n <= String.length (padStart s n (String c EmptyString)))%nat.
Proof.
  destruct (padStart_length s n (String c EmptyString)) as [_ Hlen].
  rewrite Hlen. cbn. lia.
Qed.

(** X18: the timer text is never shorter than the nine characters of
    [mm:ss.mmm], whatever the timer holds; and a finite timer below one
    millisecond, negative values included, as well as -Infinity, reads
    [00:00.000], given that [String(0)] is ["0"]. *)
Theorem X18_formatTimer_text (toString : number -> string) :
  toString (Fin 0) = "0"%string ->
  (forall msTotal : number, (9 <= String.length (formatTimer toString msTotal))%nat) /\
  (forall r : R, r < 1 -> formatTimer toString (Fin r) = "00:00.000"%string) /\
  formatTimer toString NegInf = "00:00.000"%string.
Proof.
  intros Hzero.
  assert (Hzeros : forall msTotal, timer_fields msTotal = (Fin 0, Fin 0, Fin 0) ->
                                   formatTimer toString msTotal = "00:00.000"%string).
  { intros msTotal Hf. unfold formatTimer. rewrite Hf, Hzero. reflexivity. }
  split; [| split].
  - intros msTotal. unfold formatTimer.
    destruct (timer_fields msTotal) as [[minutes seconds] millis].
    rewrite !length_append. cbn [String.length].
    pose proof (padStart_at_least (toString minutes) 2 "0").
    pose proof (padStart_at_least (toString seconds) 2 "0").
    pose proof (padStart_at_least (toString millis) 3 "0").
    lia.
  - intros r Hr. apply Hzeros.
    destruct (timer_fields_finite r) as (mi & se & ml & Hf & Hmi & Hse & Hml & Hsum).
    assert (Hfloor : (Int_part r <= 0)%Z).
    { destruct (base_Int_part r) as [Hlo _].
      assert (IZR (Int_part r) < 1) by lra.
      apply lt_IZR in H. lia. }
    rewrite Hf. replace mi with 0%Z by lia. replace se with 0%Z by lia.
    replace ml with 0%Z by lia. reflexivity.
  - apply Hzeros. apply timer_fields_special.
Qed.

Lemma decimal_text_zero : decimal_text (Fin 0) = "0"%string.
Proof. unfold decimal_text. rewrite (Int_part_IZR 0). reflexivity. Qed.

(** X18 with decimal digits for [String], at a timer of -250 ms. *)
Lemma X18_formatTimer_text_witness :
  formatTimer decimal_text (Fin (-250)) = "00:00.000"%string.
Proof.
  refine (proj1 (proj2 (X18_formatTimer_text decimal_text decimal_text_zero)) (-250) _).
  lra.
Defined.

(** ** The vortex field and the particle step *)

(** X19: for finite inputs of moderate size and [epsilon >= 1], the velocity
    that [velocityAt] writes is finite and turns around the vortex in the
    sense of its circulation: for [gamma >= 0] its x component has the sign
    opposite to [dy] and its y component the sign of [dx] (or is zero), and
    the other way round for [gamma <= 0]; the x component vanishes on the
    horizontal line through the vortex, the y component on the vertical
    line, and both at the vortex itself.  The bounds on [epsilon] and on the
    coordinates keep the quotient and the products finite in doubles. *)
Theorem X19_velocity_sense (vx vy g px py eps : R) (out : Vec2) :
  1 <= eps -> moderate vx -> moderate vy -> moderate px -> moderate py ->
  exists ux uy : R,
    Vortex.velocityAt (Vortex.mkVortex {| x := Fin vx; y := Fin vy |} (Fin g))
                      {| x := Fin px; y := Fin py |} (Fin eps) out
    = {| x := Fin ux; y := Fin uy |} /\
    (0 <= g -> ux * (py - vy) <= 0 /\ 0 <= uy * (px - vx)) /\
    (g <= 0 -> 0 <= ux * (py - vy) /\ uy * (px - vx) <= 0) /\
    (py = vy -> ux = 0) /\
    (px = vx -> uy = 0).
Proof.
  intros Heps _ _ _ _.
  eexists _, _. split; [apply velocityAt_finite; lra |].
  set (dx := px - vx). set (dy := py - vy).
  set (d := PI * 2 * (dx * dx + dy * dy + eps)).
  assert (Hd : 0 < d) by (apply denominator_pos; lra).
  assert (Hinv : 0 < / d) by now apply Rinv_0_lt_compat.
  unfold Rdiv. generalize dependent (/ d). intros k Hk.
  assert (Hxx : 0 <= dx * dx) by nra. assert (Hyy : 0 <= dy * dy) by nra.
  split; [| split; [| split]].
  - intros Hg. assert (0 <= g * k) by nra. split; nra.
  - intros Hg. assert (g * k <= 0) by nra. split; nra.
  - intros Hy. replace dy with 0 by (unfold dy; lra). ring.
  - intros Hx. replace dx with 0 by (unfold dx; lra). ring.
Qed.

Lemma moderate_small (r : R) : -1000 <= r <= 1000 -> moderate r.
Proof. intros Hr. unfold moderate. apply Rabs_le. lra. Qed.

(** X19 for the centre vortex of the program (circulation 300000) seen from
    a point 30 to the right and 40 below, with [EPSILON = 25]. *)
Lemma X19_velocity_sense_witness :
  exists ux uy : R,
    Vortex.velocityAt (Vortex.mkVortex {| x := Fin 400; y := Fin 300 |} (Fin 300000))
      {| x := Fin 430; y := Fin 340 |} EPSILON {| x := Fin 0; y := Fin 0 |}
    = {| x := Fin ux; y := Fin uy |} /\
    ux * (340 - 300) <= 0 /\ 0 <= uy * (430 - 400).
Proof.
  destruct (X19_velocity_sense 400 300 300000 430 340 25 {| x := Fin 0; y := Fin 0 |})
    as (ux & uy & Hv & Hpos & _); try (apply moderate_small; lra); try lra.
  exists ux, uy. split; [exact Hv | apply Hpos; lra].
Defined.


(** X21: a particle with no vortices around, or sitting exactly on the only
    vortex, stays where it is: its velocity is zero and its position is
    unchanged by the step, for a finite position, time step and circulation
    and [epsilon >= 1] (which keeps the quotient [gamma / denominator]
    finite in doubles). *)
Theorem X21_particle_at_rest (px py g dt eps : R) (p : Particle.Particle) :
  1 <= eps ->
  Particle.position p = {| x := Fin px; y := Fin py |} ->
  Particle.position (fst (Particle.step [] (Fin dt) (Fin eps) p))
  = Particle.position p /\
  Particle.position
    (fst (Particle.step [Vortex.mkVortex {| x := Fin px; y := Fin py |} (Fin g)]
                        (Fin dt) (Fin eps) p))
  = Particle.position p /\
  Particle.velocity
    (fst (Particle.step [Vortex.mkVortex {| x := Fin px; y := Fin py |} (Fin g)]
                        (Fin dt) (Fin eps) p))
  = {| x := Fin 0; y := Fin 0 |}.
Proof.
  intros Heps Hpos. split; [| split].
  - unfold Particle.step. rewrite Hpos. cbn. f_equal; f_equal; ring.
  - unfold Particle.step, Particle.accumulate. rewrite Hpos. cbn [fold_left].
    rewrite (velocityAt_finite px py g px py eps) by lra.
    cbn. f_equal; f_equal; ring.
  - unfold Particle.step, Particle.accumulate. rewrite Hpos. cbn [fold_left].
    rewrite (velocityAt_finite px py g px py eps) by lra.
    cbn. unfold Utils.set. f_equal; f_equal; ring.
Qed.

(** X21 for a particle created on the centre vortex. *)
Lemma X21_particle_at_rest_witness :
  Particle.position
    (fst (Particle.step [Vortex.mkVortex {| x := Fin 400; y := Fin 300 |} (Fin 300000)]
            (Fin 0.35) (Fin 25) (Particle.new {| x := Fin 400; y := Fin 300 |})))
  = Particle.position (Particle.new {| x := Fin 400; y := Fin 300 |}).
Proof.
  refine (proj1 (proj2 (X21_particle_at_rest 400 300 300000 0.35 25
            (Particle.new {| x := Fin 400; y := Fin 300 |}) _ eq_refl))).
  lra.
Defined.

(** ** Objects and [deepMerge] *)

Import Objects.

Local Open Scope nat_scope.

Lemma length_write (h : heap) (l : loc) (o : object) :
  List.length (write h l o) = List.length h.
Proof.
  revert l. induction h as [| o0 h IH]; intros [| l]; cbn; auto.
Qed.

Lemma read_write_same (h : heap) (l : loc) (o : object) :
  (l < List.length h)%nat -> read (write h l o) l = o.
Proof.
  unfold read. revert l. induction h as [| o0 h IH]; intros [| l] Hl; cbn in *;
    try lia; [reflexivity |]. apply IH. lia.
Qed.

Lemma read_write_other (h : heap) (l l' : loc) (o : object) :
  l <> l' -> read (write h l o) l' = read h l'.
Proof.
  unfold read. revert l l'. induction h as [| o0 h IH]; intros [| l] [| l'] Hne; cbn;
    try reflexivity; try congruence. apply IH. congruence.
Qed.

Lemma write_read_id (h : heap) (l : loc) : write h l (read h l) = h.
Proof.
  unfold read. revert l. induction h as [| o0 h IH]; intros [| l]; cbn;
    try reflexivity. now rewrite IH.
Qed.

Lemma read_app_l (h ext : heap) (l : loc) :
  (l < List.length h)%nat -> read (h ++ ext) l = read h l.
Proof. intros Hl. unfold read. now apply app_nth1. Qed.

Lemma read_app_new (h : heap) (o : object) : read (h ++ [o]) (List.length h) = o.
Proof. unfold read. now rewrite nth_middle. Qed.

Lemma get_put_same (o : object) (k : string) (v : value) : get (put o k v) k = v.
Proof.
  induction o as [| [k0 v0] o IH]; cbn.
  - now rewrite String.eqb_refl.
  - destruct (String.eqb k0 k) eqn:Hk; cbn; rewrite Hk; auto.
Qed.

Lemma get_put_other (o : object) (k k' : string) (v : value) :
  k <> k' -> get (put o k v) k' = get o k'.
Proof.
  intros Hne. induction o as [| [k0 v0] o IH]; cbn.
  - apply String.eqb_neq in Hne. now rewrite Hne.
  - destruct (String.eqb k0 k) eqn:Hk; cbn.
    + apply String.eqb_eq in Hk. subst k0.
      apply String.eqb_neq in Hne. now rewrite Hne.
    + now rewrite IH.
Qed.

Lemma put_get_id (o : object) (k : string) :
  In k (map fst o) -> put o k (get o k) = o.
Proof.
  induction o as [| [k0 v0] o IH]; cbn; [contradiction |].
  intros [Heq | Hin].
  - subst k0. now rewrite String.eqb_refl.
  - destruct (String.eqb k0 k) eqn:Hk; [reflexivity |]. now rewrite IH.
Qed.

Lemma keys_put (o : object) (k f : string) (v : value) :
  In f (map fst o) -> In f (map fst (put o k v)).
Proof.
  induction o as [| [k0 v0] o IH]; cbn; [contradiction |].
  intros [Heq | Hin]; destruct (String.eqb k0 k); cbn; auto.
Qed.

Lemma get_missing (o : object) (k : string) :
  ~ In k (map fst o) -> get o k = VUndefined.
Proof.
  induction o as [| [k0 v0] o IH]; cbn; [reflexivity |].
  intros Hnot. destruct (String.eqb k0 k) eqn:Hk.
  - apply String.eqb_eq in Hk. tauto.
  - apply IH. tauto.
Qed.

Lemma fold_merge_none (rec : heap -> loc -> loc -> option (heap * loc)) (r : loc)
    (entries : object) :
  fold_left (merge_key rec r) entries None = None.
Proof. induction entries as [| e entries IH]; [reflexivity | exact IH]. Qed.

Lemma keeps_refl (n : nat) (h : heap) : keeps n h h.
Proof. split; auto. Qed.

Lemma keeps_trans (n m : nat) (h1 h2 h3 : heap) :
  (n <= m)%nat -> keeps n h1 h2 -> keeps m h2 h3 -> keeps n h1 h3.
Proof.
  intros Hnm [Hl1 Hr1] [Hl2 Hr2]. split; [lia |].
  intros l Hl. rewrite Hr2 by lia. now apply Hr1.
Qed.

Lemma keeps_write (n : nat) (h : heap) (r : loc) (o : object) :
  (n <= r)%nat -> keeps n h (write h r o).
Proof.
  intros Hr. split; [now rewrite length_write |].
  intros l Hl. apply read_write_other. lia.
Qed.

(** One turn of the loop, for a recursive call that keeps the heap it
    starts from. *)
Lemma merge_key_keeps (rec : heap -> loc -> loc -> option (heap * loc)) (r : loc)
    (hc hf : heap) (e : string * value) :
  (forall h t s h' m, rec h t s = Some (h', m) -> keeps (List.length h) h h') ->
  (r < List.length hc)%nat ->
  merge_key rec r (Some hc) e = Some hf ->
  keeps r hc hf /\ (r < List.length hf)%nat.
Proof.
  intros Hrec Hr. destruct e as [key sv]. cbn [merge_key].
  assert (Hplain : forall v, Some (write hc r (put (read hc r) key v)) = Some hf ->
                             keeps r hc hf /\ (r < List.length hf)%nat).
  { intros v [= <-]. split; [now apply keeps_write |]. now rewrite length_write. }
  destruct sv as [| | b | n | str | name | la | sl]; try apply Hplain.
  - intros [= <-]. split; [apply keeps_refl | exact Hr].
  - destruct (get (read hc r) key) as [| | b | n | str | name | la | tl];
      try apply Hplain.
    destruct (rec hc tl sl) as [[h' m] |] eqn:Hcall; [| discriminate].
    intros [= <-]. apply Hrec in Hcall. destruct Hcall as [Hlen Hread]. split.
    + apply (keeps_trans r r hc h'); [lia | split; [lia |] | now apply keeps_write].
      intros l1 Hl1. apply Hread. lia.
    + rewrite length_write. lia.
Qed.

Lemma fold_merge_keeps (rec : heap -> loc -> loc -> option (heap * loc)) (r : loc)
    (entries : object) (hc hf : heap) :
  (forall h t s h' m, rec h t s = Some (h', m) -> keeps (List.length h) h h') ->
  (r < List.length hc)%nat ->
  fold_left (merge_key rec r) entries (Some hc) = Some hf ->
  keeps r hc hf /\ (r < List.length hf)%nat.
Proof.
  intros Hrec. revert hc. induction entries as [| e entries IH]; intros hc Hr Hfold.
  - cbn in Hfold. injection Hfold as <-. split; [apply keeps_refl | exact Hr].
  - cbn [fold_left] in Hfold.
    destruct (merge_key rec r (Some hc) e) as [h1 |] eqn:Hstep;
      [| now rewrite fold_merge_none in Hfold].
    destruct (merge_key_keeps rec r hc h1 e Hrec Hr Hstep) as [Hk1 Hr1].
    destruct (IH h1 Hr1 Hfold) as [Hk2 Hr2].
    split; [| exact Hr2]. now apply (keeps_trans r r hc h1 hf).
Qed.

Lemma deepMerge_keeps (fuel : nat) (h : heap) (t s : loc) (h' : heap) (r : loc) :
  deepMerge fuel h t s = Some (h', r) ->
  r = List.length h /\ (List.length h < List.length h')%nat /\ keeps (List.length h) h h'.
Proof.
  revert h t s h' r. induction fuel as [| fuel IH]; intros h t s h' r Hm;
    [discriminate |].
  cbn [deepMerge] in Hm.
  destruct (fold_left _ _ _) as [hf |] eqn:Hfold; [| discriminate].
  injection Hm as <- <-.
  assert (Hrec : forall h0 t0 s0 h1 m,
             deepMerge fuel h0 t0 s0 = Some (h1, m) -> keeps (List.length h0) h0 h1).
  { intros h0 t0 s0 h1 m Hcall. now apply IH in Hcall. }
  assert (Hnew : (List.length h < List.length (h ++ [read h t]))%nat)
    by (rewrite length_app; cbn; lia).
  destruct (fold_merge_keeps _ _ _ _ _ Hrec Hnew Hfold) as [[Hlen Hread] Hr].
  split; [reflexivity |]. split; [exact Hr |]. split.
  - rewrite length_app in Hlen. cbn in Hlen. lia.
  - intros l Hl. rewrite Hread by exact Hl. now apply read_app_l.
Qed.

Lemma flat_keeps (d : nat) (h hc : heap) (l : loc) :
  keeps (List.length h) h hc -> (l < List.length h)%nat -> flat d h l -> flat d hc l.
Proof.
  intros [Hlen Hread]. revert l. induction d as [| d IH]; intros l Hl Hflat.
  - cbn in *. rewrite Hread by exact Hl.
    eapply Forall_impl; [| exact Hflat]. intros e He. exact He.
  - cbn in *. rewrite Hread by exact Hl.
    eapply Forall_impl; [| exact Hflat]. intros [key v]. cbn [snd].
    destruct v; try (intros _; exact I).
    intros [Hl0 Hf]. split; [lia | now apply IH].
Qed.

Lemma deepMerge_S (fuel : nat) (h : heap) (t s : loc) :
  deepMerge (S fuel) h t s
  = match fold_left (merge_key (deepMerge fuel) (List.length h)) (read h s)
                    (Some (h ++ [read h t])) with
    | Some h' => Some (h', List.length h)
    | None => None
    end.
Proof. reflexivity. Qed.

Lemma deepMerge_returns (d : nat) (h : heap) (t s : loc) :
  flat d h s -> exists h', deepMerge (S d) h t s = Some (h', List.length h).
Proof.
  revert h t s. induction d as [| d IH]; intros h t s Hflat.
  - rewrite deepMerge_S. cbn [flat] in Hflat.
    assert (Hloop : forall entries hc,
               Forall (fun e => match snd e with VObject _ => False | _ => True end) entries ->
               exists hf, fold_left (merge_key (deepMerge 0) (List.length h)) entries (Some hc)
                          = Some hf).
    { induction entries as [| [key sv] entries IHe]; intros hc Hall.
      - now exists hc.
      - inversion Hall as [| e l He Hrest]; subst. cbn [fold_left merge_key].
        destruct sv; cbn in He; try contradiction; apply IHe; exact Hrest. }
    destruct (Hloop (read h s) (h ++ [read h t]) Hflat) as (hf & Hf).
    exists hf. unfold heap in *. now rewrite Hf.
  - rewrite deepMerge_S. cbn [flat] in Hflat.
    assert (Hrec : forall h0 t0 s0 h1 m,
               deepMerge (S d) h0 t0 s0 = Some (h1, m) -> keeps (List.length h0) h0 h1).
    { intros h0 t0 s0 h1 m Hcall. now apply deepMerge_keeps in Hcall. }
    assert (Hloop : forall entries hc,
               keeps (List.length h) h hc -> (List.length h < List.length hc)%nat ->
               Forall (fun e => match snd e with
                                | VObject l => (l < List.length h)%nat /\ flat d h l
                                | _ => True
                                end) entries ->
               exists hf, fold_left (merge_key (deepMerge (S d)) (List.length h)) entries
                                    (Some hc) = Some hf).
    { induction entries as [| [key sv] entries IHe]; intros hc Hk Hr Hall.
      - now exists hc.
      - inversion Hall as [| e l He Hrest]; subst. cbn [fold_left].
        assert (Hstep : exists h1, merge_key (deepMerge (S d)) (List.length h) (Some hc)
                                             (key, sv) = Some h1).
        { cbn [merge_key].
          destruct sv as [| | b | n | str | name | la | sl]; try (eexists; reflexivity).
          destruct (get (read hc (List.length h)) key) as [| | b | n | str | name | la | tl];
            try (eexists; reflexivity).
          cbn in He. destruct He as [Hl Hfl].
          destruct (IH hc tl sl (flat_keeps d h hc sl Hk Hl Hfl)) as (h2 & Hcall).
          rewrite Hcall. eexists. reflexivity. }
        destruct Hstep as (h1 & Hstep). rewrite Hstep.
        destruct (merge_key_keeps _ _ _ _ _ Hrec Hr Hstep) as [Hk1 Hr1].
        apply IHe; [| exact Hr1 | exact Hrest].
        now apply (keeps_trans _ (List.length h) h hc h1). }
    assert (Hk0 : keeps (List.length h) h (h ++ [read h t])).
    { split; [rewrite length_app; lia |]. intros l Hl. now apply read_app_l. }
    assert (Hr0 : (List.length h < List.length (h ++ [read h t]))%nat)
      by (rewrite length_app; cbn; lia).
    destruct (Hloop (read h s) (h ++ [read h t]) Hk0 Hr0 Hflat) as (hf & Hf).
    exists hf. unfold heap in *. now rewrite Hf.
Qed.

Lemma merge_key_stable (rec : heap -> loc -> loc -> option (heap * loc)) (r : loc)
    (hc hf : heap) (e : string * value) (k : string) :
  (forall h t s h' m, rec h t s = Some (h', m) -> keeps (List.length h) h h') ->
  (r < List.length hc)%nat ->
  (fst e = k -> snd e = VUndefined) ->
  merge_key rec r (Some hc) e = Some hf ->
  get (read hf r) k = get (read hc r) k.
Proof.
  intros Hrec Hr Hk. destruct e as [key sv]. cbn [fst snd] in Hk. cbn [merge_key].
  assert (Hplain : forall hb v, (r < List.length hb)%nat -> sv <> VUndefined ->
                                read hb r = read hc r ->
                                Some (write hb r (put (read hb r) key v)) = Some hf ->
                                get (read hf r) k = get (read hc r) k).
  { intros hb v Hrb Hdef Hsame [= <-]. rewrite read_write_same by exact Hrb.
    rewrite get_put_other; [now rewrite Hsame |]. intros ->. now apply Hdef, Hk. }
  destruct sv as [| | b | n | str | name | la | sl];
    try (apply (Hplain hc); [exact Hr | discriminate | reflexivity]).
  - now intros [= <-].
  - destruct (get (read hc r) key) as [| | b | n | str | name | la | tl];
      try (apply (Hplain hc); [exact Hr | discriminate | reflexivity]).
    destruct (rec hc tl sl) as [[h' m] |] eqn:Hcall; [| discriminate].
    apply Hrec in Hcall. destruct Hcall as [Hlen Hread].
    apply (Hplain h'); [lia | discriminate | now apply Hread].
Qed.

Lemma fold_merge_stable (rec : heap -> loc -> loc -> option (heap * loc)) (r : loc)
    (entries : object) (hc hf : heap) (k : string) :
  (forall h t s h' m, rec h t s = Some (h', m) -> keeps (List.length h) h h') ->
  (r < List.length hc)%nat ->
  (forall v, In (k, v) entries -> v = VUndefined) ->
  fold_left (merge_key rec r) entries (Some hc) = Some hf ->
  get (read hf r) k = get (read hc r) k.
Proof.
  intros Hrec. revert hc. induction entries as [| e entries IH]; intros hc Hr Hk Hfold.
  - cbn in Hfold. now injection Hfold as <-.
  - cbn [fold_left] in Hfold.
    destruct (merge_key rec r (Some hc) e) as [h1 |] eqn:Hstep;
      [| now rewrite fold_merge_none in Hfold].
    destruct (merge_key_keeps rec r hc h1 e Hrec Hr Hstep) as [_ Hr1].
    rewrite (IH h1 Hr1 (fun v Hin => Hk v (or_intror Hin)) Hfold).
    apply (merge_key_stable rec r hc h1 e k Hrec Hr); [| exact Hstep].
    intros Hfst. apply Hk. left. destruct e; cbn in *; now subst.
Qed.

Lemma deepMerge_rec_keeps (fuel : nat) :
  forall h t s h' m, deepMerge fuel h t s = Some (h', m) -> keeps (List.length h) h h'.
Proof. intros h t s h' m Hcall. now apply deepMerge_keeps in Hcall. Qed.

Lemma deepMerge_untouched_key (fuel : nat) (h : heap) (t s : loc) (h' : heap) (r : loc)
    (k : string) :
  deepMerge fuel h t s = Some (h', r) ->
  not_overridden h s k ->
  get (read h' r) k = get (read h t) k.
Proof.
  destruct fuel as [| fuel]; [discriminate |]. cbn [deepMerge].
  destruct (fold_left _ _ _) as [hf |] eqn:Hfold; [| discriminate].
  intros [= <- <-] Hk.
  assert (Hnew : (List.length h < List.length (h ++ [read h t]))%nat)
    by (rewrite length_app; cbn; lia).
  rewrite (fold_merge_stable _ _ _ _ _ k (deepMerge_rec_keeps fuel) Hnew Hk Hfold).
  apply f_equal2; [apply read_app_new | reflexivity].
Qed.

Lemma fold_merge_override (fuel : nat) (r : loc) (entries : object) (hc hf : heap)
    (k : string) (sl tl : loc) :
  (r < List.length hc)%nat ->
  NoDup (map fst entries) ->
  In (k, VObject sl) entries ->
  get (read hc r) k = VObject tl ->
  fold_left (merge_key (deepMerge fuel) r) entries (Some hc) = Some hf ->
  exists m, get (read hf r) k = VObject m /\ (r < m < List.length hf)%nat.
Proof.
  revert hc. induction entries as [| [k' v'] entries IH];
    intros hc Hr Hnodup Hin Htarget Hfold; [contradiction |].
  cbn [map fst] in Hnodup. inversion Hnodup as [| x xs Hnotin Hnodup']; subst.
  cbn [fold_left] in Hfold.
  destruct (merge_key (deepMerge fuel) r (Some hc) (k', v')) as [h1 |] eqn:Hstep;
    [| now rewrite fold_merge_none in Hfold].
  destruct (merge_key_keeps _ r hc h1 (k', v') (deepMerge_rec_keeps fuel) Hr Hstep)
    as [Hk1 Hr1].
  destruct Hin as [Heq | Hin].
  - injection Heq as -> ->. cbn [merge_key] in Hstep. rewrite Htarget in Hstep.
    destruct (deepMerge fuel hc tl sl) as [[h2 m] |] eqn:Hcall; [| discriminate].
    injection Hstep as <-.
    destruct (deepMerge_keeps fuel hc tl sl h2 m Hcall) as (-> & Hlen & _).
    destruct (fold_merge_keeps _ r entries _ hf (deepMerge_rec_keeps fuel) Hr1 Hfold)
      as [[Hlenf _] _].
    exists (List.length hc). split.
    + rewrite (fold_merge_stable _ r entries _ hf k (deepMerge_rec_keeps fuel) Hr1);
        [| | exact Hfold].
      * rewrite read_write_same by lia. apply get_put_same.
      * intros v Hv. exfalso. apply Hnotin.
        change k with (fst (k, v)). now apply in_map.
    + rewrite length_write in Hlenf. lia.
  - assert (Hne : k' <> k).
    { intros ->. apply Hnotin. change k with (fst (k, VObject sl)). now apply in_map. }
    apply (IH h1 Hr1 Hnodup' Hin); [| exact Hfold].
    rewrite (merge_key_stable _ r hc h1 (k', v') k (deepMerge_rec_keeps fuel) Hr);
      [exact Htarget | | exact Hstep].
    cbn. intros Heq. contradiction.
Qed.

(** X22: with fuel one above the nesting depth of the overrides, [deepMerge]
    returns; its result is a new object, and every object that existed
    before, target and source included, is left exactly as it was. *)
Theorem X22_deepMerge_fresh_result (d : nat) (h : heap) (t s : loc) :
  flat d h s ->
  exists h',
    deepMerge (S d) h t s = Some (h', List.length h) /\
    (List.length h < List.length h')%nat /\
    forall l, (l < List.length h)%nat -> read h' l = read h l.
Proof.
  intros Hflat. destruct (deepMerge_returns d h t s Hflat) as (h' & Hm).
  exists h'. split; [exact Hm |].
  destruct (deepMerge_keeps _ _ _ _ _ _ Hm) as (_ & Hlen & _ & Hread). auto.
Qed.

Lemma flat_timeScale_override : flat 1 heap_timeScale_override 9.
Proof.
  cbn. repeat constructor; cbn; try lia; repeat constructor.
Qed.

(** X22 for [defaultParams] merged with the overrides of [?timeScale=2]. *)
Lemma X22_deepMerge_fresh_result_witness :
  exists h',
    deepMerge 2 heap_timeScale_override 0 9 = Some (h', 10%nat) /\
    (10 < List.length h')%nat.
Proof.
  destruct (X22_deepMerge_fresh_result 1 heap_timeScale_override 0 9
              flat_timeScale_override) as (h' & Hm & Hlen & _).
  exists h'. split; assumption.
Defined.

(** X23: a group that the overrides do not mention is not copied: the merged
    object holds the very object of the target under that key, so an
    assignment to a field of the group through the merged object is seen
    through the target as well. *)
Theorem X23_deepMerge_shares_untouched_group
    (d : nat) (h : heap) (t s : loc) (k f : string) (g : loc) (v : value) :
  flat d h s -> not_overridden h s k ->
  (t < List.length h)%nat ->
  get (read h t) k = VObject g -> (g < List.length h)%nat -> g <> t ->
  exists h' h'',
    deepMerge (S d) h t s = Some (h', List.length h) /\
    get (read h' (List.length h)) k = VObject g /\
    assign h' (List.length h) k f v = Some h'' /\
    lookup h'' t k f = v.
Proof.
  intros Hflat Hk Ht Hg Hgl Hgt.
  destruct (deepMerge_returns d h t s Hflat) as (h' & Hm).
  destruct (deepMerge_keeps _ _ _ _ _ _ Hm) as (_ & Hlen & _ & Hread).
  pose proof (deepMerge_untouched_key _ _ _ _ _ _ k Hm Hk) as Hshare.
  rewrite Hg in Hshare.
  exists h', (write h' g (put (read h' g) f v)).
  split; [exact Hm |]. split; [exact Hshare |]. split.
  - unfold assign. now rewrite Hshare.
  - unfold lookup. rewrite read_write_other by exact Hgt.
    rewrite (Hread t Ht), Hg. rewrite read_write_same by lia. apply get_put_same.
Qed.

(** X23 for a URL without parameters: setting [params.motion.timeScale] to 3
    sets [defaultParams.motion.timeScale] to 3. *)
Lemma X23_deepMerge_shares_untouched_group_witness :
  exists h' h'',
    deepMerge 1 heap_no_overrides 0 8 = Some (h', 9%nat) /\
    get (read h' 9) "motion" = VObject 1 /\
    assign h' 9 "motion" "timeScale" (VNumber (Fin 3)) = Some h'' /\
    lookup h'' 0 "motion" "timeScale" = VNumber (Fin 3).
Proof.
  refine (X23_deepMerge_shares_untouched_group 0 heap_no_overrides 0 8
            "motion" "timeScale" 1 (VNumber (Fin 3)) _ _ _ eq_refl _ _).
  - constructor.
  - intros v [].
  - cbn. lia.
  - cbn. lia.
  - discriminate.
Defined.

(** X24: a group that the overrides give as an object is merged into a new
    object, whose location did not exist before; an assignment to a field of
    the group through the merged object takes effect there and leaves every
    earlier object, the target's group included, unchanged. *)
Theorem X24_deepMerge_copies_overridden_group
    (d : nat) (h : heap) (t s : loc) (k f : string) (sl tl : loc) (v : value) :
  flat d h s -> NoDup (map fst (read h s)) ->
  In (k, VObject sl) (read h s) ->
  get (read h t) k = VObject tl ->
  exists h' h'' m,
    deepMerge (S d) h t s = Some (h', List.length h) /\
    get (read h' (List.length h)) k = VObject m /\
    (List.length h < m)%nat /\
    assign h' (List.length h) k f v = Some h'' /\
    lookup h'' (List.length h) k f = v /\
    forall l, (l < List.length h)%nat -> read h'' l = read h l.
Proof.
  intros Hflat Hnodup Hin Htl.
  destruct (deepMerge_returns d h t s Hflat) as (h' & Hm).
  destruct (deepMerge_keeps _ _ _ _ _ _ Hm) as (_ & Hlen & _ & Hread).
  pose proof Hm as Hm'. rewrite deepMerge_S in Hm'.
  destruct (fold_left _ _ _) as [hf |] eqn:Hfold; [| discriminate].
  injection Hm' as ->.
  assert (Hnew : (List.length h < List.length (h ++ [read h t]))%nat)
    by (rewrite length_app; cbn; lia).
  assert (Htarget : get (read (h ++ [read h t]) (List.length h)) k = VObject tl).
  { rewrite <- Htl. apply f_equal2; [apply read_app_new | reflexivity]. }
  destruct (fold_merge_override d (List.length h) (read h s) _ h' k sl tl
              Hnew Hnodup Hin Htarget Hfold) as (m & Hget & Hm1 & Hm2).
  exists h', (write h' m (put (read h' m) f v)), m.
  split; [exact Hm |]. split; [exact Hget |]. split; [exact Hm1 |]. split; [| split].
  - unfold assign. now rewrite Hget.
  - unfold lookup. rewrite read_write_other by lia. rewrite Hget.
    rewrite read_write_same by exact Hm2. apply get_put_same.
  - intros l Hl. rewrite read_write_other by lia. now apply Hread.
Qed.

(** X24 for the overrides of [?timeScale=2]: [params.motion] is a new object
    and setting its [timeScale] leaves [defaultParams.motion] alone. *)
Lemma X24_deepMerge_copies_overridden_group_witness :
  exists h' h'' m,
    deepMerge 2 heap_timeScale_override 0 9 = Some (h', 10%nat) /\
    get (read h' 10) "motion" = VObject m /\
    (10 < m)%nat /\
    assign h' 10 "motion" "timeScale" (VNumber (Fin 3)) = Some h'' /\
    lookup h'' 10 "motion" "timeScale" = VNumber (Fin 3) /\
    forall l, (l < 10)%nat -> read h'' l = read heap_timeScale_override l.
Proof.
  refine (X24_deepMerge_copies_overridden_group 1 heap_timeScale_override 0 9
            "motion" "timeScale" 8 1 (VNumber (Fin 3)) flat_timeScale_override _ _ eq_refl).
  - cbn. repeat constructor. intros [].
  - left. reflexivity.
Defined.

Lemma reset_groups_not_running :
  Forall (fun gf => fst gf <> "running"%string) reset_fields.
Proof. repeat constructor; discriminate. Qed.

Lemma assign_shared_noop (h : heap) (p t : loc) (g f : string) (l : loc) :
  get (read h p) g = VObject l -> get (read h t) g = VObject l ->
  In f (map fst (read h l)) ->
  assign h p g f (lookup h t g f) = Some h.
Proof.
  intros Hp Ht Hf. unfold assign, lookup. rewrite Hp, Ht.
  now rewrite put_get_id, write_read_id.
Qed.

Lemma fold_assign_noop (h : heap) (p t : loc) (fields : list (string * string)) :
  (forall gf, In gf fields ->
              assign h p (fst gf) (snd gf) (lookup h t (fst gf) (snd gf)) = Some h) ->
  fold_left
    (fun acc gf =>
       match acc with
       | None => None
       | Some h' => assign h' p (fst gf) (snd gf) (lookup h' t (fst gf) (snd gf))
       end)
    fields (Some h) = Some h.
Proof.
  induction fields as [| gf fields IH]; intros Hall; [reflexivity |].
  cbn [fold_left]. rewrite (Hall gf (or_introl eq_refl)).
  apply IH. intros gf' Hin. apply Hall. now right.
Qed.

Lemma restore_shared_noop (h : heap) (p t : loc) :
  shares h p t -> p <> t ->
  restore_defaults h p t
  = Some (write h p (put (read h p) "running" (get (read h t) "running"))).
Proof.
  intros Hsh Hpt. unfold restore_defaults. apply fold_assign_noop.
  intros [g f] Hin. cbn [fst snd].
  destruct (Hsh g f Hin) as (l & Hp & Ht & Hlp & Hlt & Hl & Hf).
  assert (Hg : g <> "running"%string).
  { pose proof reset_groups_not_running as Hall.
    rewrite Forall_forall in Hall. exact (Hall (g, f) Hin). }
  destruct (Nat.lt_ge_cases p (List.length h)) as [Hp_in | Hp_out].
  - apply (assign_shared_noop _ p t g f l).
    + rewrite read_write_same by exact Hp_in.
      rewrite get_put_other by (intros Heq; now apply Hg). exact Hp.
    + rewrite read_write_other by exact Hpt. exact Ht.
    + rewrite read_write_other by (intros Heq; now apply Hlp). exact Hf.
  - unfold read in Hp. rewrite nth_overflow in Hp by exact Hp_out. discriminate.
Qed.

Lemma merge_empty (h : heap) (t s : loc) :
  read h s = [] -> deepMerge 1 h t s = Some (h ++ [read h t], List.length h).
Proof. intros Hs. rewrite deepMerge_S, Hs. reflexivity. Qed.

(** X25: for a URL without parameters [params] is a one-level copy of
    [defaultParams], so every group of [params] is the group object of
    [defaultParams] itself.  A value then set through [params] changes the
    default too, and the assignments of [resetToDefault] copy every field
    onto itself: of everything they assign only [params.running] is
    written, and the value that was set is still there afterwards. *)
Theorem X25_resetToDefault_keeps_live_values
    (h : heap) (t s : loc) (g f : string) (v : value) :
  (t < List.length h)%nat -> read h s = [] ->
  defaults_complete h t -> In (g, f) reset_fields ->
  exists h1 h2,
    deepMerge 1 h t s = Some (h1, List.length h) /\
    assign h1 (List.length h) g f v = Some h2 /\
    restore_defaults h2 (List.length h) t
    = Some (write h2 (List.length h)
              (put (read h2 (List.length h)) "running" (get (read h2 t) "running"))) /\
    forall h3, restore_defaults h2 (List.length h) t = Some h3 ->
               lookup h3 (List.length h) g f = v /\ lookup h3 t g f = v.
Proof.
  intros Ht Hs Hdef Hin.
  set (p := List.length h). set (h1 := h ++ [read h t]).
  assert (Hp1 : read h1 p = read h t) by apply read_app_new.
  assert (Hold : forall l, (l < List.length h)%nat -> read h1 l = read h l)
    by (intros l Hl; now apply read_app_l).
  assert (Hlen1 : List.length h1 = S p) by (unfold h1; rewrite length_app; cbn; lia).
  destruct (Hdef g f Hin) as (l0 & Hg0 & Hl0 & Hl0t & Hf0).
  set (h2 := write h1 l0 (put (read h1 l0) f v)).
  assert (Hlen2 : List.length h2 = S p) by (unfold h2; now rewrite length_write).
  assert (Hr2 : forall l, l <> l0 -> read h2 l = read h1 l)
    by (intros l Hl; unfold h2; apply read_write_other; congruence).
  assert (Hl0p : l0 <> p) by (unfold p; lia).
  assert (Hsh : shares h2 p t).
  { intros g' f' Hin'. destruct (Hdef g' f' Hin') as (l & Hg & Hl & Hlt & Hf).
    exists l. rewrite (Hr2 p), (Hr2 t), Hp1, (Hold t Ht) by congruence.
    repeat split; try assumption; try (unfold p; lia); try lia.
    destruct (Nat.eq_dec l l0) as [-> | Hne].
    - unfold h2. rewrite read_write_same by lia. apply keys_put.
      now rewrite (Hold l0 Hl0).
    - rewrite (Hr2 l Hne), (Hold l Hl). exact Hf. }
  assert (Hpt : p <> t) by (unfold p; lia).
  pose proof (restore_shared_noop h2 p t Hsh Hpt) as Hrestore.
  exists h1, h2. split; [now apply merge_empty |]. split.
  - unfold assign. rewrite Hp1, Hg0. reflexivity.
  - split; [exact Hrestore |]. intros h3 Hh3. rewrite Hrestore in Hh3.
    injection Hh3 as <-.
    assert (Hg : g <> "running"%string).
    { pose proof reset_groups_not_running as Hall.
      rewrite Forall_forall in Hall. exact (Hall (g, f) Hin). }
    unfold lookup.
    rewrite read_write_same by lia.
    rewrite get_put_other by (intros Heq; now apply Hg).
    rewrite (read_write_other _ p t) by exact Hpt.
    rewrite (Hr2 p), (Hr2 t), Hp1, (Hold t Ht), Hg0 by congruence.
    rewrite (read_write_other _ p l0) by congruence.
    unfold h2. rewrite read_write_same by lia.
    split; apply get_put_same.
Qed.

Lemma default_heap_complete : defaults_complete heap_no_overrides 0.
Proof.
  intros g f Hin. cbn in Hin.
  repeat (destruct Hin as [Hin | Hin];
          [injection Hin as <- <-; eexists;
           split; [cbn; reflexivity
                  | split; [cbn; lia | split; [discriminate | cbn; tauto]]] |]).
  contradiction.
Qed.

(** X25 for the default program: [timeScale] set to 3 in the GUI is still 3
    after [resetToDefault]. *)
Lemma X25_resetToDefault_keeps_live_values_witness :
  exists h1 h2,
    deepMerge 1 heap_no_overrides 0 8 = Some (h1, 9) /\
    assign h1 9 "motion" "timeScale" (VNumber (Fin 3)) = Some h2 /\
    forall h3, restore_defaults h2 9 0 = Some h3 ->
               lookup h3 9 "motion" "timeScale" = VNumber (Fin 3) /\
               lookup h3 0 "motion" "timeScale" = VNumber (Fin 3).
Proof.
  destruct (X25_resetToDefault_keeps_live_values heap_no_overrides 0 8
              "motion" "timeScale" (VNumber (Fin 3)))
    as (h1 & h2 & Hm & Ha & _ & Hkeep).
  - cbn. lia.
  - reflexivity.
  - exact default_heap_complete.
  - left. reflexivity.
  - exists h1, h2. repeat split; try assumption; now apply Hkeep.
Defined.

Local Close Scope nat_scope.
